(** * The bounded conversation cache (ols/src/cache/postgres_cache_.py)
      and the quota limiter interface (ols/src/quota/quota_limiter.py)

    The Postgres server is modelled by the rows of the [cache] table, the
    psycopg2 cursor by its pending result set, and every method of
    [PostgresCache] by a state-passing function over the two.  A raised
    exception keeps the state reached so far: the connection runs with
    [autocommit = True], so a statement that ran stays applied.

    Each method is modelled by its body.  The [@connection] decorator
    (ols.utils.connection_decorator), [Cache.construct_key] and the
    classes of ols.app.models.models are defined outside the two modules
    at hand; what is assumed of them is said where they are used. *)

From Stdlib Require Import ZArith String Ascii List Bool Lia Permutation Sorted.
From stdpp Require Import base option list sorting strings gmap.
Import ListNotations.
Local Open Scope string_scope.
Local Open Scope list_scope.
Local Open Scope Z_scope.

(** ** Exceptions *)

(** The psycopg2 error classes.  All but [InterfaceError] derive from
    [psycopg2.DatabaseError]. *)
Inductive PgError :=
  | InterfaceError
  | DataError
  | OperationalError
  | IntegrityError
  | InternalError
  | ProgrammingError
  | NotSupportedError.

Definition is_DatabaseError (e : PgError) : bool :=
  match e with
  | InterfaceError => false
  | _ => true
  end.

(** Python built-in exceptions met on the way: [UnicodeDecodeError] and
    [json.JSONDecodeError] are [ValueError]s, and so is what psycopg2
    raises for a parameter it cannot adapt. *)
Inductive PyError := ValueError | TypeError | KeyError | AttributeError.

Inductive Exn :=
  | InvalidIdentifier
  | Builtin (e : PyError)
  | Psycopg (e : PgError)
  | CacheError (op : string) (cause : PgError).

Definition Result (A : Type) : Type := Exn + A.

(** ** The cache table *)

Definition bytes := list Byte.byte.

(** One row of [CREATE_CACHE_TABLE]: the two key columns are NOT NULL, the
    other three are nullable. *)
Record Row := mkRow {
  user_id : string;
  conversation_id : string;
  value : option bytes;
  topic_summary : option string;
  updated_at : option Z
}.

Definition row_key (r : Row) : string * string := (user_id r, conversation_id r).

Definition key_eqb (k1 k2 : string * string) : bool :=
  String.eqb (fst k1) (fst k2) && String.eqb (snd k1) (snd k2).

(** [WHERE user_id=%s AND conversation_id=%s] *)
Definition has_key (u c : string) (r : Row) : bool := key_eqb (row_key r) (u, c).

(** [ORDER BY updated_at]: ascending, NULLs last. *)
Definition ts_leb (a b : option Z) : bool :=
  match a, b with
  | Some x, Some y => x <=? y
  | _, None => true
  | None, Some _ => false
  end.

Definition older_eq (r1 r2 : Row) : bool := ts_leb (updated_at r1) (updated_at r2).

(** [ORDER BY updated_at DESC]: descending, NULLs first. *)
Definition newer_eq (r1 r2 : Row) : bool := ts_leb (updated_at r2) (updated_at r1).

(** ORDER BY says nothing of rows that compare equal: the server puts
    them in the order it likes, which [rank] stands for (rows of equal
    rank are left in storage order). *)
Definition tie_leb (rank : Row -> Z) (leb : Row -> Row -> bool) (r1 r2 : Row) : bool :=
  leb r1 r2 && (negb (leb r2 r1) || (rank r1 <=? rank r2)).

Fixpoint insert_sorted (leb : Row -> Row -> bool) (r : Row) (l : list Row) : list Row :=
  match l with
  | [] => [r]
  | x :: xs => if leb r x then r :: l else x :: insert_sorted leb r xs
  end.

Definition order_by (rank : Row -> Z) (leb : Row -> Row -> bool) (l : list Row) : list Row :=
  fold_right (insert_sorted (tie_leb rank leb)) [] l.

(** ** Statements and their result sets *)

Inductive Cell :=
  | CBytes (b : option bytes)
  | CText (s : option string)
  | CInt (n : Z).

Definition Tuple := list Cell.

(** The SQL constants of [PostgresCache], with their [%s] parameters. *)
Inductive Statement :=
  | SELECT_CONVERSATION_HISTORY_STATEMENT (u c : string)
  | UPDATE_CONVERSATION_HISTORY_STATEMENT (v : bytes) (u c : string)
  | INSERT_CONVERSATION_HISTORY_STATEMENT (u c : string) (v : bytes) (topic : string)
  | DELETE_CONVERSATION_HISTORY_STATEMENT (limit : Z)
  | QUERY_CACHE_SIZE
  | DELETE_SINGLE_CONVERSATION_STATEMENT (u c : string)
  | LIST_CONVERSATIONS_STATEMENT (u : string).

(** The [str] parameters of a statement.  The value column is passed as
    [bytes], and the LIMIT of the eviction is pasted into the text of the
    statement, not passed. *)
Definition text_params (q : Statement) : list string :=
  match q with
  | SELECT_CONVERSATION_HISTORY_STATEMENT u c => [u; c]
  | UPDATE_CONVERSATION_HISTORY_STATEMENT _ u c => [u; c]
  | INSERT_CONVERSATION_HISTORY_STATEMENT u c _ topic => [u; c; topic]
  | DELETE_SINGLE_CONVERSATION_STATEMENT u c => [u; c]
  | LIST_CONVERSATIONS_STATEMENT u => [u]
  | DELETE_CONVERSATION_HISTORY_STATEMENT _ | QUERY_CACHE_SIZE => []
  end.

(** A string psycopg2 can pass as a parameter: one without the NUL
    character.  For any other, [cursor.execute] raises [ValueError] ("A
    string literal cannot contain NUL (0x00) characters") and sends
    nothing.  Strings stand for their UTF-8 encoding; a Python [str] that
    has none is refused in the same way, with a [UnicodeEncodeError], and
    has no counterpart here. *)
Fixpoint bindable (s : string) : bool :=
  match s with
  | EmptyString => true
  | String a s' => negb (Ascii.eqb a Ascii.zero) && bindable s'
  end.

(** LIMIT is a [bigint]: the server refuses a larger count. *)
Definition max_bigint : Z := 9223372036854775807.

(** The rows picked by
    [SELECT user_id, conversation_id FROM cache ORDER BY updated_at LIMIT n]. *)
Definition oldest (rank : Row -> Z) (n : nat) (t : list Row) : list Row :=
  firstn n (order_by rank older_eq t).

Definition is_victim (victims : list Row) (r : Row) : bool :=
  existsb (fun v => key_eqb (row_key r) (row_key v)) victims.

(** The rows left by
    [DELETE ... WHERE (user_id, conversation_id) in (... ORDER BY updated_at LIMIT n)]. *)
Definition evict (rank : Row -> Z) (n : nat) (t : list Row) : list Row :=
  filter (fun r => negb (is_victim (oldest rank n t) r)) t.

Definition touch (now : Z) (v : bytes) (r : Row) : Row :=
  {| user_id := user_id r; conversation_id := conversation_id r;
     value := Some v; topic_summary := topic_summary r; updated_at := Some now |}.

(** What one statement does to the table at server time [now], the
    server breaking ties by [rank], and the result set it leaves ([None]:
    the statement returns no rows at all, as an INSERT, UPDATE or DELETE
    without RETURNING). *)
Definition run_statement (rank : Row -> Z) (now : Z) (q : Statement) (t : list Row)
  : PgError + (list Row * option (list Tuple)) :=
  match q with
  | SELECT_CONVERSATION_HISTORY_STATEMENT u c =>
      inr (t, Some (map (fun r => [CBytes (value r)]) (firstn 1 (filter (has_key u c) t))))
  | UPDATE_CONVERSATION_HISTORY_STATEMENT v u c =>
      inr (map (fun r => if has_key u c r then touch now v r else r) t, None)
  | INSERT_CONVERSATION_HISTORY_STATEMENT u c v topic =>
      if existsb (has_key u c) t then inl IntegrityError
      else inr (t ++ [mkRow u c (Some v) (Some topic) (Some now)], None)
  | DELETE_CONVERSATION_HISTORY_STATEMENT limit =>
      if (limit <? 0) || (max_bigint <? limit) then inl DataError
      else inr (evict rank (Z.to_nat limit) t, None)
  | QUERY_CACHE_SIZE =>
      inr (t, Some [[CInt (Z.of_nat (length t))]])
  | DELETE_SINGLE_CONVERSATION_STATEMENT u c =>
      inr (filter (fun r => negb (has_key u c r)) t, None)
  | LIST_CONVERSATIONS_STATEMENT u =>
      inr (t, Some (map (fun r => [CText (Some (conversation_id r)); CText (topic_summary r)])
                        (order_by rank newer_eq
                           (filter (fun r => String.eqb (user_id r) u) t))))
  end.

(** ** The server and the cursor *)

(** [faults] scripts the server's availability: each executed statement
    consumes one element, and [Some e] makes that statement raise [e]
    without running.  [calls] counts the statements sent; [clock] is what
    CURRENT_TIMESTAMP reads.  [ties n] is how the server orders rows of
    equal [updated_at] in the statement it runs when [n] statements have
    been sent: any order is allowed, and it may change from one statement
    to the next. *)
Record Backend := mkBackend {
  table : list Row;
  clock : Z;
  faults : list (option PgError);
  calls : nat;
  ties : nat -> Row -> Z
}.

Definition at_time (now : Z) (b : Backend) : Backend :=
  {| table := table b; clock := now; faults := faults b; calls := calls b; ties := ties b |}.

(** Ties in storage order. *)
Definition storage_order : nat -> Row -> Z := fun _ _ => 0.

Definition empty_backend : Backend :=
  {| table := []; clock := 0; faults := []; calls := 0; ties := storage_order |}.

(** A cursor: [results = None] when the last statement produced no result
    set (or none was executed yet). *)
Record Session := mkSession {
  conn : Backend;
  results : option (list Tuple)
}.

Definition M (A : Type) : Type := Session -> Result A * Session.

Definition ret {A} (x : A) : M A := fun s => (inr x, s).
Definition raise {A} (e : Exn) : M A := fun s => (inl e, s).
Definition bind {A B} (m : M A) (k : A -> M B) : M B := fun s =>
  match m s with
  | (inl e, s') => (inl e, s')
  | (inr x, s') => k x s'
  end.

Notation "'let*' x := m 'in' k" := (bind m (fun x => k))
  (at level 10, x name, m at level 100, k at level 200).
Notation "'run' m 'then' k" := (bind m (fun _ => k))
  (at level 10, m at level 100, k at level 200).

(** The server after one more statement, which left the table as [t]. *)
Definition sent (b : Backend) (t : list Row) : Backend :=
  {| table := t; clock := clock b; faults := tl (faults b); calls := S (calls b);
     ties := ties b |}.

(** [cursor.execute(q)]: the parameters are adapted first, and a string
    that cannot be raises before anything is sent. *)
Definition execute (q : Statement) : M unit := fun s =>
  let b := conn s in
  if negb (forallb bindable (text_params q)) then (inl (Builtin ValueError), s)
  else
    match hd None (faults b) with
    | Some e => (inl (Psycopg e), mkSession (sent b (table b)) None)
    | None =>
        match run_statement (ties b (calls b)) (clock b) q (table b) with
        | inl e => (inl (Psycopg e), mkSession (sent b (table b)) None)
        | inr (t, rs) => (inr tt, mkSession (sent b t) rs)
        end
    end.

(** [cursor.fetchone()]: with no result set psycopg2 raises
    [ProgrammingError("no results to fetch")]. *)
Definition fetchone : M (option Tuple) := fun s =>
  match results s with
  | None => (inl (Psycopg ProgrammingError), s)
  | Some [] => (inr None, s)
  | Some (r :: rs) => (inr (Some r), mkSession (conn s) (Some rs))
  end.

(** [cursor.fetchall()] *)
Definition fetchall : M (list Tuple) := fun s =>
  match results s with
  | None => (inl (Psycopg ProgrammingError), s)
  | Some rs => (inr rs, mkSession (conn s) (Some []))
  end.

(** [try: ... except psycopg2.DatabaseError as e: raise CacheError(op, e) from e] *)
Definition except_DatabaseError {A} (op : string) (m : M A) : M A := fun s =>
  match m s with
  | (inl (Psycopg e), s') =>
      if is_DatabaseError e then (inl (CacheError op e), s') else (inl (Psycopg e), s')
  | r => r
  end.

(** [with self.connection.cursor() as cursor: ...], on a connection that
    is open (what the [@connection] decorator is there to provide). *)
Definition with_cursor {A} (m : M A) (b : Backend) : Result A * Backend :=
  let '(r, s) := m (mkSession b None) in (r, conn s).

(** ** Collaborators outside the module *)

(** What [json.loads] returns, as far as the code looks at it: [None]
    (JSON null), a list, or any other value (an object, a string, a
    number, a boolean, or what [MessageDecoder] builds from an object).
    Of the last the code sees its truth value, in [if old_value:], and
    what iterating over it yields, [None] when it cannot be iterated
    over; it has no [append]. *)
Inductive Decoded (J : Type) :=
  | DNone
  | DList (l : list J)
  | DOther (truthy : bool) (items : option (list J)).
Arguments DNone {J}.
Arguments DList {J} l.
Arguments DOther {J} truthy items.

(** [bool(d)] *)
Definition truth {J} (d : Decoded J) : bool :=
  match d with
  | DNone => false
  | DList [] => false
  | DList (_ :: _) => true
  | DOther truthy _ => truthy
  end.

(** [iter(d)], run to its end. *)
Definition iterate {J} (d : Decoded J) : PyError + list J :=
  match d with
  | DList l => inr l
  | DOther _ (Some items) => inr items
  | DOther _ None | DNone => inl TypeError
  end.

(** [CacheEntry], [MessageEncoder] and [MessageDecoder] come from
    [ols.app.models.models], which is not part of the sources at hand:
    they are taken as parameters.  [dumps l] stands for
    [json.dumps(l, cls=MessageEncoder).encode("utf-8")] and [loads b] for
    [json.loads(str(b, "utf-8"), cls=MessageDecoder)], [None] when either
    [str] or [json.loads] raises (a [ValueError]). *)
Class EntryCodec := {
  CacheEntry : Type;
  JsonValue : Type;
  to_dict : CacheEntry -> JsonValue;
  from_dict : JsonValue -> PyError + CacheEntry;
  dumps : list JsonValue -> bytes;
  loads : bytes -> option (Decoded JsonValue)
}.

(** The round trip the stored format must satisfy. *)
Class RoundTrip (C : EntryCodec) : Prop := {
  loads_dumps : forall l : list JsonValue, loads (dumps l) = Some (DList l);
  from_dict_to_dict : forall e : CacheEntry, from_dict (to_dict e) = inr e
}.

(** A hexadecimal digit, of either case. *)
Definition is_hex (a : ascii) : bool :=
  let n := nat_of_ascii a in
  ((48 <=? n) && (n <=? 57) || (97 <=? n) && (n <=? 102) || (65 <=? n) && (n <=? 70))%nat.

(** [n] hexadecimal digits at the head of [s]; what follows them. *)
Fixpoint hex_group (n : nat) (s : string) : option string :=
  match n, s with
  | O, _ => Some s
  | S n', String a s' => if is_hex a then hex_group n' s' else None
  | S _, EmptyString => None
  end.

(** Groups of hexadecimal digits of the given sizes, hyphens between. *)
Fixpoint uuid_groups (groups : list nat) (s : string) : bool :=
  match groups with
  | [] => false
  | [n] => match hex_group n s with Some EmptyString => true | _ => false end
  | n :: rest =>
      match hex_group n s with
      | Some (String "-" s') => uuid_groups rest s'
      | _ => false
      end
  end.

(** Modelled from the spec: [suid.check_suid] of [ols.utils], the test
    behind [Cache.construct_key]; identifiers are "validated as canonical
    UUID-format strings", that is 8-4-4-4-12 hexadecimal digits. *)
Definition check_suid (s : string) : bool := uuid_groups [8; 4; 4; 4; 12]%nat s.

(** Modelled from the spec: [Cache.construct_key] of [ols.src.cache.cache],
    called by [get] for its check only: "Both user_id and conversation_id
    are validated as canonical UUID-format strings unless
    skip_user_id_check is set", failing with InvalidIdentifier. *)
Definition construct_key (user_id conversation_id : string) (skip_user_id_check : bool)
  : M unit :=
  if skip_user_id_check then ret tt
  else if check_suid user_id && check_suid conversation_id then ret tt
  else raise InvalidIdentifier.

(** ** PostgresCache *)

Section PostgresCache.
Context {codec : EntryCodec}.

(** [PostgresCache._select]: [None] for a key that has no row, and
    otherwise what the stored value decodes to, which may be [None]
    too. *)
Definition _select (user_id conversation_id : string) : M (Decoded JsonValue) :=
  run execute (SELECT_CONVERSATION_HISTORY_STATEMENT user_id conversation_id) then
  let* value := fetchone in
  match value with
  | None => ret DNone
  | Some value =>
      if negb (length value =? 1)%nat then raise (Builtin ValueError)
      else
        match value with
        | CBytes (Some b) :: _ =>
            match loads b with
            | Some deserialized => ret deserialized
            | None => raise (Builtin ValueError)
            end
        | _ => raise (Builtin TypeError)
        end
  end.

(** [PostgresCache._update] *)
Definition _update (user_id conversation_id : string) (value : bytes) : M unit :=
  execute (UPDATE_CONVERSATION_HISTORY_STATEMENT value user_id conversation_id).

(** [PostgresCache._insert] *)
Definition _insert (user_id conversation_id : string) (value : bytes) (topic_summary : string)
  : M unit :=
  execute (INSERT_CONVERSATION_HISTORY_STATEMENT user_id conversation_id value topic_summary).

(** [PostgresCache._cleanup] *)
Definition _cleanup (capacity : Z) : M unit :=
  run execute QUERY_CACHE_SIZE then
  let* value := fetchone in
  match value with
  | None => ret tt
  | Some (CInt count :: _) =>
      let limit := count - capacity in
      if 0 <? limit then execute (DELETE_CONVERSATION_HISTORY_STATEMENT (count - capacity))
      else ret tt
  | Some _ => raise (Builtin TypeError)
  end.

(** [PostgresCache._delete] *)
Definition _delete (user_id conversation_id : string) : M bool :=
  run execute (DELETE_SINGLE_CONVERSATION_STATEMENT user_id conversation_id) then
  let* row := fetchone in
  ret (match row with Some _ => true | None => false end).

(** [[CacheEntry.from_dict(cache_entry) for cache_entry in value]], over
    the items of [value]. *)
Fixpoint from_dicts (value : list JsonValue) : PyError + list CacheEntry :=
  match value with
  | [] => inr []
  | d :: ds =>
      match from_dict d with
      | inl e => inl e
      | inr x =>
          match from_dicts ds with
          | inl e => inl e
          | inr xs => inr (x :: xs)
          end
      end
  end.

(** [PostgresCache.get] *)
Definition get (user_id conversation_id : string) (skip_user_id_check : bool)
  : Backend -> Result (list CacheEntry) * Backend :=
  with_cursor (
    run construct_key user_id conversation_id skip_user_id_check then
    except_DatabaseError "PostgresCache.get" (
      let* value := _select user_id conversation_id in
      match value with
      | DNone => ret []
      | _ =>
          match iterate value with
          | inl e => raise (Builtin e)
          | inr items =>
              match from_dicts items with
              | inl e => raise (Builtin e)
              | inr history => ret history
              end
          end
      end)).

(** [PostgresCache.insert_or_append], [capacity] being [self.capacity].
    Whatever is falsy takes the insert branch: no row, [None], an empty
    list; what is truthy and no list has no [append]. *)
Definition insert_or_append (capacity : Z) (user_id conversation_id : string)
    (cache_entry : CacheEntry) (topic_summary : string) (skip_user_id_check : bool)
  : Backend -> Result unit * Backend :=
  with_cursor (
    let value := to_dict cache_entry in
    except_DatabaseError "PostgresCache.insert_or_append" (
      let* old_value := _select user_id conversation_id in
      if truth old_value then
        match old_value with
        | DList old_value =>
            _update user_id conversation_id (dumps (old_value ++ [value]))
        | _ => raise (Builtin AttributeError)
        end
      else
        run _insert user_id conversation_id (dumps [value]) topic_summary then
        _cleanup capacity)).

(** [PostgresCache.delete] *)
Definition delete (user_id conversation_id : string) (skip_user_id_check : bool)
  : Backend -> Result bool * Backend :=
  with_cursor (
    except_DatabaseError "PostgresCache.delete" (_delete user_id conversation_id)).

(** One element of the list returned by [PostgresCache.list]. *)
Record Conversation := mkConversation {
  conv_conversation_id : option string;
  conv_topic_summary : option string
}.

Definition cell_text (c : option Cell) : option string :=
  match c with
  | Some (CText s) => s
  | _ => None
  end.

(** [PostgresCache.list] *)
Definition list_ (user_id : string) (skip_user_id_check : bool)
  : Backend -> Result (list Conversation) * Backend :=
  with_cursor (
    except_DatabaseError "PostgresCache.list" (
      run execute (LIST_CONVERSATIONS_STATEMENT user_id) then
      let* rows := fetchall in
      ret (map (fun row => mkConversation (cell_text (nth_error row 0)) (cell_text (nth_error row 1)))
               rows))).

End PostgresCache.

(** ** A small codec to run the model on

    Entries are single bytes.  A stored payload is the byte ["["]
    followed by its entries for a list, ["n"] for null and ["{}"] for
    the empty object; any other payload fails to decode. *)
Module ByteCodec.

Definition byte_dumps (l : list Byte.byte) : bytes := Byte.x5b :: l.

Definition byte_loads (b : bytes) : option (Decoded Byte.byte) :=
  match b with
  | Byte.x5b :: l => Some (DList l)
  | [Byte.x6e] => Some DNone
  | [Byte.x7b; Byte.x7d] => Some (DOther false (Some []))
  | _ => None
  end.

#[export] Instance codec : EntryCodec := {|
  CacheEntry := Byte.byte;
  JsonValue := Byte.byte;
  to_dict := fun e => e;
  from_dict := fun d => inr d;
  dumps := byte_dumps;
  loads := byte_loads
|}.

#[export] Instance round_trip : RoundTrip codec.
Proof. split; intros; reflexivity. Qed.

End ByteCodec.

(** ** Table invariants and call sequences *)

(** The row written by the insert branch of [insert_or_append]. *)
Definition new_row {codec : EntryCodec} (user_id conversation_id : string)
    (cache_entry : CacheEntry) (topic_summary : string) (now : Z) : Row :=
  mkRow user_id conversation_id (Some (dumps [to_dict cache_entry])) (Some topic_summary) (Some now).

(** PRIMARY KEY(user_id, conversation_id) *)
Definition primary_key (t : list Row) : Prop := NoDup (map row_key t).

(** One [insert_or_append] call, made when the server clock reads
    [call_time]. *)
Record Call {codec : EntryCodec} := mkCall {
  call_time : Z;
  call_user_id : string;
  call_conversation_id : string;
  call_entry : CacheEntry;
  call_topic_summary : string;
  call_skip : bool
}.
Arguments mkCall {codec} _ _ _ _ _ _.

Definition step {codec : EntryCodec} (capacity : Z) (c : Call) (b : Backend) : Backend :=
  snd (insert_or_append capacity (call_user_id c) (call_conversation_id c)
         (call_entry c) (call_topic_summary c) (call_skip c) (at_time (call_time c) b)).

Definition run_calls {codec : EntryCodec} (capacity : Z) (cs : list Call) (b : Backend)
  : Backend :=
  fold_left (fun b c => step capacity c b) cs b.

(** The row a call writes when it takes the insert branch. *)
Definition call_row {codec : EntryCodec} (c : Call) : Row :=
  new_row (call_user_id c) (call_conversation_id c) (call_entry c)
          (call_topic_summary c) (call_time c).



(** On a server that answers, the row SELECT returns for the key
    [(u, c)] stores exactly the entries [l]. *)
Definition stores {codec : EntryCodec} (u c : string) (l : list CacheEntry) (b : Backend)
  : Prop :=
  faults b = [] /\ l <> [] /\ bindable u = true /\ bindable c = true /\
  exists r, head (filter (has_key u c) (table b)) = Some r /\
            value r = Some (dumps (map to_dict l)).

(** What [except psycopg2.DatabaseError] makes of a psycopg2 error
    raised under it. *)
Definition surfaced (op : string) (e : PgError) : Exn :=
  if is_DatabaseError e then CacheError op e else Psycopg e.

(** The dictionary [PostgresCache.list] builds from a row. *)
Definition conversation_of (r : Row) : Conversation :=
  mkConversation (Some (conversation_id r)) (topic_summary r).

(** A computation that never fails on the identifiers. *)
Definition never_InvalidIdentifier {A} (m : M A) : Prop :=
  forall s, fst (m s) <> inl InvalidIdentifier.

(** Sample tables and calls over [ByteCodec]. *)
Module Sample.
Import ByteCodec.

Definition valid_user : string := "123e4567-e89b-12d3-a456-426614174000".
Definition valid_conversation : string := "0f2a6b1c-9d3e-4f50-8a7b-6c5d4e3f2a1b".

(** A string with the NUL character in it. *)
Definition with_nul : string := String "u" (String Ascii.zero "A").

Definition row (u c : string) (entries : list Byte.byte) (ts : Z) : Row :=
  mkRow u c (Some (dumps entries)) (Some "topic") (Some ts).

Definition backend_of (t : list Row) : Backend :=
  {| table := t; clock := 0; faults := []; calls := 0; ties := storage_order |}.

Definition two_rows : Backend :=
  backend_of [row "u" "A" [Byte.x01] 1; row "u" "B" [Byte.x02] 2].

Definition call (now : Z) (u c : string) (e : Byte.byte) : Call :=
  mkCall now u c e "topic" false.




(** A server whose next statement fails for lack of connectivity. *)
Definition unreachable : Backend :=
  {| table := table two_rows; clock := 0; faults := [Some OperationalError]; calls := 0;
     ties := storage_order |}.

(** A server that breaks ties against the row of conversation ["C"]:
    among rows of equal [updated_at] it comes first. *)
Definition against_C : Backend :=
  {| table := table two_rows; clock := 2; faults := []; calls := 0;
     ties := fun _ r => if String.eqb (conversation_id r) "C" then 0 else 1 |}.

End Sample.
(** ** The quota limiter (ols/src/quota/quota_limiter.py)

    [QuotaLimiter] is an abstract base class: [available_quota],
    [consume_tokens] and the three other methods are declared without a
    body, and no concrete limiter is among the sources. *)
Module QuotaLimiter.

(** What happens when a request costs more than what is left; the spec
    leaves the choice open and asks that it be applied consistently. *)
Inductive Policy := Clamp | Fail.

Inductive QuotaError := QuotaExceeded.

(** Modelled from the spec: the QuotaRecords, "keyed by subject
    identifier", each holding "a remaining-quota counter" and "created
    lazily on first check" with the limiter's initial quota. *)
Record Limiter := mkLimiter {
  policy : Policy;
  initial_quota : Z;
  quota : gmap string Z
}.

Definition remaining (subject_id : string) (st : Limiter) : Z :=
  default (initial_quota st) (quota st !! subject_id).

Definition set_quota (subject_id : string) (q : Z) (st : Limiter) : Limiter :=
  {| policy := policy st; initial_quota := initial_quota st;
     quota := <[subject_id := q]> (quota st) |}.

(** Modelled from the spec: [available_quota(subject_id)], the "current
    remaining budget for the subject", whose record it creates if there is
    none. *)
Definition available_quota (subject_id : string) (st : Limiter) : Z * Limiter :=
  (remaining subject_id st, set_quota subject_id (remaining subject_id st) st).

(** Modelled from the spec: [consume_tokens(input_tokens, output_tokens,
    subject_id)] "decrements the subject's remaining budget by the sum of
    input and output token counts; must not allow the counter to go
    negative -- a request whose token cost exceeds the remaining balance
    either clamps at zero or fails". *)
Definition consume_tokens (input_tokens output_tokens : Z) (subject_id : string)
    (st : Limiter) : (QuotaError + unit) * Limiter :=
  let cost := input_tokens + output_tokens in
  let left := remaining subject_id st in
  if cost <=? left then (inr tt, set_quota subject_id (left - cost) st)
  else
    match policy st with
    | Clamp => (inr tt, set_quota subject_id 0 st)
    | Fail => (inl QuotaExceeded, st)
    end.

(** A sequence of [consume_tokens] calls: input tokens, output tokens,
    subject. *)
Definition consume_all (calls : list (Z * Z * string)) (st : Limiter) : Limiter :=
  fold_left (fun st '(i, o, s) => snd (consume_tokens i o s st)) calls st.

(** No counter is negative, nor is the quota a new record starts with. *)
Definition nonnegative (st : Limiter) : Prop :=
  0 <= initial_quota st /\ map_Forall (fun _ q => 0 <= q) (quota st).

End QuotaLimiter.

(** ** Notions for the properties beyond the claims *)


(** A computation that builds no CacheError of its own: what it raises
    is a psycopg2 error or a Python built-in. *)
Definition plain {A} (m : M A) : Prop :=
  forall s op e, fst (m s) <> inl (CacheError op e).

(** An outcome in which every [psycopg2.DatabaseError] has been turned
    into a CacheError naming [op]. *)
Definition wrapped_by {A} (op : string) (r : Result A) : Prop :=
  match r with
  | inl (Psycopg e) => is_DatabaseError e = false
  | inl (CacheError op' e) => op' = op /\ is_DatabaseError e = true
  | _ => True
  end.

(** ** Connecting ([connect], [initialize_cache], [connected], [ready])

    The server is now seen with its schema: whether the [cache] table and
    the [timestamps] index exist, in its committed state.  Every exchange
    with the server consumes one element of the fault script of its
    [Backend], as [execute] does. *)
Module Lifecycle.

Record Server := mkServer {
  cache_exists : bool;
  timestamps_exists : bool;
  backend : Backend
}.

(** What [self.connection] shows of a psycopg2 connection: [closed] is 0
    while it is open, 1 once [close()] was called, and another value when
    the link was found broken. *)
Record Connection := mkConnection {
  closed : Z;
  autocommit : bool
}.

(** One exchange with the server: the scripted outcome, and the server
    after it. *)
Definition contact (sv : Server) : option PgError * Server :=
  (hd None (faults (backend sv)),
   {| cache_exists := cache_exists sv; timestamps_exists := timestamps_exists sv;
      backend := sent (backend sv) (table (backend sv)) |}).

(** [PostgresCache.initialize_cache]: CREATE TABLE IF NOT EXISTS, CREATE
    INDEX IF NOT EXISTS, then [commit()].  The connection is not yet in
    autocommit mode, so the schema changes only if the commit is reached;
    a table that exists keeps its rows. *)
Definition initialize_cache (sv : Server) : Result unit * Server :=
  let '(create_table, sv1) := contact sv in
  match create_table with
  | Some e => (inl (Psycopg e), sv1)
  | None =>
      let '(create_index, sv2) := contact sv1 in
      match create_index with
      | Some e => (inl (Psycopg e), sv2)
      | None =>
          let '(commit, sv3) := contact sv2 in
          match commit with
          | Some e => (inl (Psycopg e), sv3)
          | None =>
              (inr tt,
               {| cache_exists := true; timestamps_exists := true;
                  backend :=
                    sent (backend sv2)
                         (if cache_exists sv then table (backend sv) else []) |})
          end
      end
  end.

(** [PostgresCache.connect]: [self.connection] is reset to [None], set to
    what [psycopg2.connect] returns, closed if [initialize_cache] raises
    (the exception is raised again as it is), and put in autocommit mode
    otherwise. *)
Definition connect (self_connection : option Connection) (sv : Server)
  : Result unit * option Connection * Server :=
  let '(link, sv0) := contact sv in
  match link with
  | Some e => (inl (Psycopg e), None, sv0)
  | None =>
      match initialize_cache sv0 with
      | (inl ex, sv1) => (inl ex, Some {| closed := 1; autocommit := false |}, sv1)
      | (inr _, sv1) => (inr tt, Some {| closed := 0; autocommit := true |}, sv1)
      end
  end.

(** [PostgresCache.connected]: the probe [SELECT 1]; only
    [psycopg2.OperationalError] is turned into [False].  [cursor()] on a
    connection that is not open raises [InterfaceError]. *)
Definition connected (self_connection : option Connection) (sv : Server)
  : Result bool * Server :=
  match self_connection with
  | None => (inr false, sv)
  | Some cn =>
      if closed cn =? 0 then
        match contact sv with
        | (Some OperationalError, sv') => (inr false, sv')
        | (Some e, sv') => (inl (Psycopg e), sv')
        | (None, sv') => (inr true, sv')
        end
      else (inl (Psycopg InterfaceError), sv)
  end.

(** [psycopg2.extensions.POLL_OK] *)
Definition POLL_OK : Z := 0.

(** [connection.poll()] on a connection that was not opened for
    asynchronous use: nothing is exchanged with the server; a connection
    that is open answers [POLL_OK], one that is not raises
    [InterfaceError]. *)
Definition poll (cn : Connection) : PgError + Z :=
  if closed cn =? 0 then inr POLL_OK else inl InterfaceError.

(** [PostgresCache.ready] *)
Definition ready (self_connection : option Connection) : Result bool :=
  match self_connection with
  | None => inr false
  | Some cn =>
      if closed cn =? 1 then inr false
      else
        match poll cn with
        | inl OperationalError | inl InterfaceError => inr false
        | inl e => inl (Psycopg e)
        | inr status => inr (status =? POLL_OK)
        end
  end.

End Lifecycle.


(** What [get] makes of the value [_select] returned. *)
Definition history_of {codec : EntryCodec} (value : Decoded JsonValue)
  : Result (list CacheEntry) :=
  match value with
  | DNone => inr []
  | _ =>
      match iterate value with
      | inl e => inl (Builtin e)
      | inr items =>
          match from_dicts items with
          | inl e => inl (Builtin e)
          | inr history => inr history
          end
      end
  end.

(** * Properties *)

(** ** Keys and timestamps *)

Lemma key_eqb_eq k1 k2 : key_eqb k1 k2 = true <-> k1 = k2.
Proof.
  destruct k1 as [u1 c1], k2 as [u2 c2]; unfold key_eqb; simpl.
  rewrite andb_true_iff, !String.eqb_eq. split.
  - intros [-> ->]; reflexivity.
  - intros [= -> ->]; auto.
Qed.

Lemma has_key_eq u c r : has_key u c r = true <-> row_key r = (u, c).
Proof. apply key_eqb_eq. Qed.

Lemma ts_leb_total a b : ts_leb a b = false -> ts_leb b a = true.
Proof. destruct a, b; simpl; intros H; try easy. apply Z.leb_le. apply Z.leb_gt in H. lia. Qed.

Lemma ts_leb_trans a b c : ts_leb a b = true -> ts_leb b c = true -> ts_leb a c = true.
Proof.
  destruct a, b, c; simpl; intros H1 H2; try easy.
  apply Z.leb_le in H1, H2. apply Z.leb_le. lia.
Qed.

(** ** Identifiers the driver can bind *)

Lemma hex_not_NUL a : is_hex a = true -> Ascii.eqb a Ascii.zero = false.
Proof.
  intros H. destruct (Ascii.eqb a Ascii.zero) eqn:E; [|reflexivity].
  apply Ascii.eqb_eq in E. subst a. discriminate H.
Qed.

Lemma hex_group_bindable n s rest :
  hex_group n s = Some rest -> bindable rest = true -> bindable s = true.
Proof.
  revert s. induction n as [|n IH]; intros s; simpl.
  - now intros [= ->].
  - destruct s as [|a s]; [discriminate|].
    destruct (is_hex a) eqn:Ha; [|discriminate].
    intros H Hrest. simpl. now rewrite (hex_not_NUL a Ha), (IH s H Hrest).
Qed.

Lemma uuid_groups_bindable groups s : uuid_groups groups s = true -> bindable s = true.
Proof.
  revert s. induction groups as [|n rest IH]; intros s; simpl; [discriminate|].
  destruct rest as [|m rest].
  - destruct (hex_group n s) as [[|a r]|] eqn:E; try discriminate.
    intros _. now apply (hex_group_bindable n s "" E).
  - destruct (hex_group n s) as [[|a r]|] eqn:E; try discriminate.
    destruct (Ascii.eqb a "-") eqn:Ea.
    + apply Ascii.eqb_eq in Ea. subst a. intros H.
      apply (hex_group_bindable n s _ E). simpl. now apply IH.
    + intros H. exfalso.
      destruct a as [[] [] [] [] [] [] [] []]; try discriminate H. discriminate Ea.
Qed.

(** An identifier that passes the check holds no NUL. *)
Lemma check_suid_bindable s : check_suid s = true -> bindable s = true.
Proof. apply uuid_groups_bindable. Qed.

(** [get] goes to the server with identifiers that passed its check or
    whose check was skipped; the first can always be bound. *)
Lemma checked_bindable u c skip :
  skip = true \/ (check_suid u = true /\ check_suid c = true) ->
  (skip = true -> bindable u = true /\ bindable c = true) ->
  bindable u = true /\ bindable c = true.
Proof.
  intros Hid Hskip. destruct skip; [now apply Hskip|].
  destruct Hid as [|[Hu Hc]]; [discriminate|].
  split; now apply check_suid_bindable.
Qed.

(** ** The sort behind ORDER BY *)

Section Sorting.
Variable leb : Row -> Row -> bool.

Let le (a b : Row) : Prop := leb a b = true.

Lemma insert_sorted_Permutation r l : insert_sorted leb r l ≡ₚ r :: l.
Proof.
  induction l as [|x xs IH]; simpl; [reflexivity|].
  destruct (leb r x); [reflexivity|].
  rewrite IH. apply Permutation_swap.
Qed.

Lemma sort_Permutation l : fold_right (insert_sorted leb) [] l ≡ₚ l.
Proof.
  induction l as [|x xs IH]; simpl; [reflexivity|].
  rewrite insert_sorted_Permutation. now rewrite IH.
Qed.

Hypothesis leb_total : forall a b, leb a b = false -> leb b a = true.
Hypothesis leb_trans : forall a b c, leb a b = true -> leb b c = true -> leb a c = true.

Lemma insert_sorted_sorted r l :
  StronglySorted le l -> StronglySorted le (insert_sorted leb r l).
Proof using Type*.
  induction 1 as [|x xs Hs IH Hx]; simpl.
  - repeat constructor.
  - destruct (leb r x) eqn:E.
    + constructor; [constructor; assumption|].
      constructor; [exact E|].
      eapply Forall_impl; [exact Hx|]. intros y Hy. exact (leb_trans _ _ _ E Hy).
    + constructor; [exact IH|].
      rewrite insert_sorted_Permutation. constructor; [|exact Hx].
      apply leb_total, E.
Qed.

Lemma sort_sorted l : StronglySorted le (fold_right (insert_sorted leb) [] l).
Proof using Type*.
  induction l as [|x xs IH]; simpl; [constructor|].
  apply insert_sorted_sorted, IH.
Qed.

End Sorting.

(** However the server breaks ties, the rows come out in order. *)
Section Ties.
Variable rank : Row -> Z.
Variable leb : Row -> Row -> bool.

Lemma order_by_Permutation l : order_by rank leb l ≡ₚ l.
Proof. apply sort_Permutation. Qed.


Hypothesis leb_total : forall a b, leb a b = false -> leb b a = true.
Hypothesis leb_trans : forall a b c, leb a b = true -> leb b c = true -> leb a c = true.

Lemma tie_leb_total a b : tie_leb rank leb a b = false -> tie_leb rank leb b a = true.
Proof using Type*.
  unfold tie_leb. destruct (leb a b) eqn:Hab; simpl.
  - destruct (leb b a) eqn:Hba; simpl; [|discriminate].
    intros H. apply Z.leb_gt in H. apply Z.leb_le. lia.
  - intros _. now rewrite (leb_total _ _ Hab).
Qed.

Lemma tie_leb_trans a b c :
  tie_leb rank leb a b = true -> tie_leb rank leb b c = true -> tie_leb rank leb a c = true.
Proof using Type*.
  unfold tie_leb. intros [Hab Tab]%andb_true_iff [Hbc Tbc]%andb_true_iff.
  rewrite (leb_trans _ _ _ Hab Hbc); simpl.
  destruct (leb c a) eqn:Hca; [|reflexivity]. simpl.
  rewrite (leb_trans _ _ _ Hbc Hca) in Tab. rewrite (leb_trans _ _ _ Hca Hab) in Tbc.
  simpl in Tab, Tbc. apply Z.leb_le in Tab, Tbc. apply Z.leb_le. lia.
Qed.

Lemma order_by_sorted l : StronglySorted (fun a b => leb a b = true) (order_by rank leb l).
Proof using Type*.
  assert (H : StronglySorted (fun a b => tie_leb rank leb a b = true) (order_by rank leb l))
    by (apply sort_sorted; [apply tie_leb_total|apply tie_leb_trans]).
  induction H as [|x xs _ IH Hx]; constructor; [exact IH|].
  eapply Forall_impl; [exact Hx|]. intros y Hy. unfold tie_leb in Hy.
  now apply andb_true_iff in Hy as [Hy _].
Qed.


End Ties.

(** ** Eviction on a table whose primary key holds *)

Lemma map_fmap {A B} (f : A -> B) (l : list A) : map f l = f <$> l.
Proof. reflexivity. Qed.

Lemma filter_all {A} (P : A -> Prop) `{forall x, Decision (P x)} (l : list A) :
  (forall x, x ∈ l -> P x) -> filter P l = l.
Proof.
  induction l as [|a l IH]; intros Hall; [reflexivity|].
  rewrite filter_cons_True by (apply Hall; left).
  f_equal. apply IH. intros x Hx. apply Hall. now right.
Qed.

Lemma filter_none {A} (P : A -> Prop) `{forall x, Decision (P x)} (l : list A) :
  (forall x, x ∈ l -> ~ P x) -> filter P l = [].
Proof.
  induction l as [|a l IH]; intros Hall; [reflexivity|].
  rewrite filter_cons_False by (apply Hall; left).
  apply IH. intros x Hx. apply Hall. now right.
Qed.



Lemma primary_key_inj t r1 r2 :
  primary_key t -> r1 ∈ t -> r2 ∈ t -> row_key r1 = row_key r2 -> r1 = r2.
Proof.
  unfold primary_key. induction t as [|x xs IH]; simpl; intros Hnd H1 H2 Hk.
  - inversion H1.
  - apply NoDup_cons in Hnd as [Hx Hnd].
    apply elem_of_cons in H1 as [->|H1], H2 as [->|H2]; auto.
    + exfalso. apply Hx. rewrite Hk, map_fmap. now apply list_elem_of_fmap_2.
    + exfalso. apply Hx. rewrite <- Hk, map_fmap. now apply list_elem_of_fmap_2.
Qed.

Section Eviction.
Variable rank : Row -> Z.






Lemma evict_subseteq n t r : r ∈ evict rank n t -> r ∈ t.
Proof. unfold evict. intros H. apply list_elem_of_filter in H. tauto. Qed.

Lemma primary_key_evict n t : primary_key t -> primary_key (evict rank n t).
Proof.
  unfold primary_key, evict. rewrite !map_fmap. intros H.
  eapply sublist_NoDup; [exact H|]. apply fmap_sublist, sublist_filter.
Qed.

End Eviction.

(** ** What SELECT ... LIMIT 1 finds *)

Lemma filter_has_key_nil u c t :
  existsb (has_key u c) t = false -> filter (has_key u c) t = [].
Proof.
  intros H. apply filter_none. intros r Hr Hk. apply Is_true_true in Hk.
  assert (existsb (has_key u c) t = true); [|congruence].
  apply existsb_exists. exists r. split; [now apply list_elem_of_In|exact Hk].
Qed.

Lemma filter_has_key_cons u c t :
  existsb (has_key u c) t = true ->
  exists r rs, filter (has_key u c) t = r :: rs /\ r ∈ t /\ has_key u c r = true.
Proof.
  intros H. apply existsb_exists in H as (x & Hx & Hk).
  apply list_elem_of_In in Hx.
  destruct (filter (has_key u c) t) as [|r rs] eqn:E.
  - exfalso. eapply (filter_nil_not_elem_of _ t x E); [now apply Is_true_true|exact Hx].
  - exists r, rs. split; [reflexivity|].
    assert (Hr : r ∈ filter (has_key u c) t) by (rewrite E; left).
    apply list_elem_of_filter in Hr as [Hk' Hr]. split; [exact Hr|now apply Is_true_true].
Qed.

Lemma existsb_has_key_elem_of u c t :
  existsb (has_key u c) t = true <-> exists r, r ∈ t /\ row_key r = (u, c).
Proof.
  rewrite existsb_exists. split; intros (r & Hr & Hk); exists r;
    (split; [now apply list_elem_of_In|now apply has_key_eq]).
Qed.

(** ** Running the private helpers *)

Section Runs.
Context {codec : EntryCodec}.

Lemma execute_bound q s :
  forallb bindable (text_params q) = true ->
  execute q s =
  match hd None (faults (conn s)) with
  | Some e => (inl (Psycopg e), mkSession (sent (conn s) (table (conn s))) None)
  | None =>
      match run_statement (ties (conn s) (calls (conn s))) (clock (conn s)) q (table (conn s)) with
      | inl e => (inl (Psycopg e), mkSession (sent (conn s) (table (conn s))) None)
      | inr (t, rs) => (inr tt, mkSession (sent (conn s) t) rs)
      end
  end.
Proof. intros H. unfold execute. now rewrite H. Qed.

Lemma execute_unbound q s :
  forallb bindable (text_params q) = false -> execute q s = (inl (Builtin ValueError), s).
Proof. intros H. unfold execute. now rewrite H. Qed.

(** Binding comes first: whatever the server would do, a statement with
    a parameter the driver cannot adapt is not sent. *)
Lemma _select_unbound u c s :
  bindable u && bindable c = false -> _select u c s = (inl (Builtin ValueError), s).
Proof.
  intros H. unfold _select, bind. rewrite execute_unbound; [reflexivity|].
  simpl. now rewrite andb_true_r.
Qed.

(** [_select] in full: the fault, the missing row, the NULL value, the
    payload that does not decode, and the decoded value. *)
Lemma _select_run u c b res :
  bindable u = true -> bindable c = true ->
  _select u c (mkSession b res) =
  match hd None (faults b) with
  | Some e => (inl (Psycopg e), mkSession (sent b (table b)) None)
  | None =>
      match filter (has_key u c) (table b) with
      | [] => (inr DNone, mkSession (sent b (table b)) (Some []))
      | r :: _ =>
          (match value r with
           | None => inl (Builtin TypeError)
           | Some bs =>
               match loads bs with
               | None => inl (Builtin ValueError)
               | Some d => inr d
               end
           end, mkSession (sent b (table b)) (Some []))
      end
  end.
Proof.
  intros Hu Hc. unfold _select, bind.
  rewrite execute_bound by (simpl; now rewrite Hu, Hc). simpl.
  destruct (hd None (faults b)); [reflexivity|].
  unfold fetchone; simpl.
  destruct (filter (has_key u c) (table b)) as [|r rs]; simpl; [reflexivity|].
  destruct (value r) as [bs|]; [|reflexivity].
  destruct (loads bs); reflexivity.
Qed.

(** [_cleanup] on a server that answers: the eviction is refused when
    its LIMIT does not fit. *)
Lemma _cleanup_run capacity b res :
  faults b = [] ->
  let count := Z.of_nat (length (table b)) in
  _cleanup capacity (mkSession b res) =
  (if 0 <? count - capacity
   then
     if count - capacity <=? max_bigint
     then (inr tt,
           mkSession (sent (sent b (table b))
                        (evict (ties b (S (calls b))) (Z.to_nat (count - capacity)) (table b)))
                     None)
     else (inl (Psycopg DataError), mkSession (sent (sent b (table b)) (table b)) None)
   else (inr tt, mkSession (sent b (table b)) (Some []))).
Proof.
  intros Hf count. unfold _cleanup, bind. rewrite execute_bound by reflexivity. simpl.
  rewrite Hf; simpl. unfold fetchone; simpl. fold count.
  destruct (0 <? count - capacity) eqn:E; [|reflexivity].
  rewrite execute_bound by reflexivity. simpl. rewrite Hf; simpl.
  apply Z.ltb_lt in E.
  assert ((count - capacity <? 0) = false) as -> by (apply Z.ltb_ge; lia). simpl.
  rewrite Z.ltb_antisym. now destruct (count - capacity <=? max_bigint).
Qed.

End Runs.

(** ** The two branches of [insert_or_append] *)

Section Branches.
Context {codec : EntryCodec}.

(** An identifier the driver cannot bind stops the call at its first
    statement: nothing is sent. *)
Lemma insert_or_append_unbound K u c e topic skip b :
  bindable u && bindable c = false ->
  insert_or_append K u c e topic skip b = (inl (Builtin ValueError), b).
Proof.
  intros H. unfold insert_or_append, with_cursor, except_DatabaseError, bind.
  now rewrite (_select_unbound u c _ H).
Qed.

(** The insert branch on a server that answers: the row is added, then
    [_cleanup] counts and, on overflow, evicts, unless the server refuses
    the LIMIT. *)
Lemma insert_or_append_absent K u c e topic skip b :
  faults b = [] ->
  existsb (has_key u c) (table b) = false ->
  bindable u = true -> bindable c = true -> bindable topic = true ->
  let t1 := table b ++ [new_row u c e topic (clock b)] in
  let overflow := Z.of_nat (length t1) - K in
  exists b',
    insert_or_append K u c e topic skip b =
      (if max_bigint <? overflow
       then inl (CacheError "PostgresCache.insert_or_append" DataError)
       else inr tt, b') /\
    faults b' = [] /\ clock b' = clock b /\
    table b' = if (0 <? overflow) && (overflow <=? max_bigint)
               then evict (ties b (3 + calls b)%nat) (Z.to_nat overflow) t1 else t1.
Proof.
  intros Hf Habs Hu Hc Ht t1 overflow.
  unfold insert_or_append, with_cursor, except_DatabaseError, bind.
  rewrite _select_run by assumption.
  rewrite Hf, (filter_has_key_nil _ _ _ Habs); simpl.
  unfold _insert. rewrite execute_bound by (simpl; now rewrite Hu, Hc, Ht). simpl.
  rewrite Hf, Habs; simpl.
  rewrite _cleanup_run by (simpl; now rewrite Hf); simpl.
  fold (new_row u c e topic (clock b)). fold t1. fold overflow.
  rewrite (Z.ltb_antisym overflow max_bigint).
  destruct (0 <? overflow) eqn:E; simpl.
  - destruct (overflow <=? max_bigint); simpl; eexists;
      (split; [reflexivity|]); simpl; rewrite Hf; auto.
  - assert ((overflow <=? max_bigint) = true) as ->.
    { apply Z.ltb_ge in E. apply Z.leb_le. unfold max_bigint. lia. }
    eexists; (split; [reflexivity|]); simpl; rewrite Hf; auto.
Qed.

(** The insert branch with a topic the driver cannot bind: SELECT is
    sent, INSERT is not. *)
Lemma insert_or_append_absent_topic K u c e topic skip b :
  hd None (faults b) = None ->
  existsb (has_key u c) (table b) = false ->
  bindable u = true -> bindable c = true -> bindable topic = false ->
  insert_or_append K u c e topic skip b = (inl (Builtin ValueError), sent b (table b)).
Proof.
  intros Hf Habs Hu Hc Ht.
  unfold insert_or_append, with_cursor, except_DatabaseError, bind.
  rewrite _select_run by assumption.
  rewrite Hf, (filter_has_key_nil _ _ _ Habs); simpl.
  unfold _insert. rewrite execute_unbound; [reflexivity|].
  simpl. now rewrite Hu, Hc, Ht.
Qed.

(** A call for a key that has a row either fails and leaves the table as
    it was, or appends: it decodes the row SELECT returned, and UPDATE
    rewrites the value and the timestamp of the rows with that key. *)
Lemma insert_or_append_present K u c e topic skip b :
  existsb (has_key u c) (table b) = true ->
  (exists ex, fst (insert_or_append K u c e topic skip b) = inl ex /\
              table (snd (insert_or_append K u c e topic skip b)) = table b) \/
  (fst (insert_or_append K u c e topic skip b) = inr tt /\
   hd None (faults b) = None /\
   bindable u = true /\ bindable c = true /\
   exists r0 bs old,
     head (filter (has_key u c) (table b)) = Some r0 /\
     value r0 = Some bs /\ loads bs = Some (DList old) /\ old <> [] /\
     table (snd (insert_or_append K u c e topic skip b)) =
       map (fun r => if has_key u c r
                     then touch (clock b) (dumps (old ++ [to_dict e])) r else r) (table b)).
Proof.
  intros Hin.
  destruct (bindable u && bindable c) eqn:Hb;
    [|left; rewrite (insert_or_append_unbound K u c e topic skip b Hb); eauto].
  apply andb_true_iff in Hb as [Hu Hc].
  destruct (filter_has_key_cons _ _ _ Hin) as (r0 & rs & Hfl & Hr0 & Hk).
  unfold insert_or_append, with_cursor, except_DatabaseError, bind.
  rewrite _select_run by assumption. rewrite Hfl.
  destruct (hd None (faults b)) as [e1|] eqn:Hf1.
  { left. destruct (is_DatabaseError e1); eexists; split; reflexivity. }
  destruct (value r0) as [bs|] eqn:Hv; [|left; eexists; split; reflexivity].
  destruct (loads bs) as [d|] eqn:Hl; [|left; eexists; split; reflexivity].
  destruct (truth d) eqn:Htruth.
  - destruct d as [|[|x old]|t items]; try discriminate Htruth;
      [|left; eexists; split; reflexivity].
    unfold _update. rewrite execute_bound by (simpl; now rewrite Hu, Hc). simpl.
    destruct (hd None (tl (faults b))) as [e2|].
    + left. destruct (is_DatabaseError e2); eexists; split; reflexivity.
    + right. split; [reflexivity|]. split; [reflexivity|].
      split; [exact Hu|]. split; [exact Hc|].
      exists r0, bs, (x :: old). repeat split; auto.
  - (* what is falsy takes the insert branch: INSERT hits the primary key *)
    left. unfold _insert.
    destruct (bindable topic) eqn:Ht.
    + rewrite execute_bound by (simpl; now rewrite Hu, Hc, Ht). simpl.
      destruct (hd None (tl (faults b))) as [e2|].
      * destruct (is_DatabaseError e2); eexists; split; reflexivity.
      * rewrite Hin; simpl. eexists; split; reflexivity.
    + rewrite execute_unbound by (simpl; now rewrite Hu, Hc, Ht).
      eexists; split; reflexivity.
Qed.

(** Where the insert branch can leave the table, whatever the server
    does: untouched, with the new row, or with the new row and evicted. *)
Lemma insert_or_append_absent_cases K u c e topic skip b :
  existsb (has_key u c) (table b) = false ->
  let t1 := table b ++ [new_row u c e topic (clock b)] in
  let t' := table (snd (insert_or_append K u c e topic skip b)) in
  t' = table b \/ t' = t1 \/
  (0 < Z.of_nat (length t1) - K /\
   exists rank, t' = evict rank (Z.to_nat (Z.of_nat (length t1) - K)) t1).
Proof.
  intros Habs t1 t'.
  destruct (bindable u && bindable c) eqn:Hb;
    [|left; unfold t'; now rewrite (insert_or_append_unbound K u c e topic skip b Hb)].
  apply andb_true_iff in Hb as [Hu Hc].
  unfold t', insert_or_append, with_cursor, except_DatabaseError, bind.
  rewrite _select_run by assumption. rewrite (filter_has_key_nil _ _ _ Habs).
  destruct (hd None (faults b)) as [e1|]; [left; now destruct (is_DatabaseError e1)|].
  simpl. unfold _insert.
  destruct (bindable topic) eqn:Ht;
    [|left; rewrite execute_unbound by (simpl; now rewrite Hu, Hc, Ht); reflexivity].
  rewrite execute_bound by (simpl; now rewrite Hu, Hc, Ht). simpl.
  destruct (hd None (tl (faults b))) as [e2|]; [left; now destruct (is_DatabaseError e2)|].
  rewrite Habs; simpl.
  unfold _cleanup, bind. rewrite execute_bound by reflexivity. simpl.
  destruct (hd None (tl (tl (faults b)))) as [e3|];
    [right; left; now destruct (is_DatabaseError e3)|]. simpl.
  unfold fetchone; simpl.
  fold (new_row u c e topic (clock b)). fold t1.
  destruct (0 <? Z.of_nat (length t1) - K) eqn:E; [|right; now left]. simpl.
  rewrite execute_bound by reflexivity. simpl.
  destruct (hd None (tl (tl (tl (faults b))))) as [e4|];
    [right; left; now destruct (is_DatabaseError e4)|].
  apply Z.ltb_lt in E.
  destruct ((_ <? 0) || _); [right; now left|].
  right; right. split; [exact E|]. eexists. reflexivity.
Qed.

End Branches.

(** ** The capacity bound *)

Section Capacity.
Context {codec : EntryCodec}.

Lemma insert_or_append_quiet K u c e topic skip b :
  faults b = [] -> faults (snd (insert_or_append K u c e topic skip b)) = [].
Proof.
  intros Hf.
  destruct (bindable u && bindable c) eqn:Hb;
    [|now rewrite (insert_or_append_unbound K u c e topic skip b Hb)].
  apply andb_true_iff in Hb as [Hu Hc].
  destruct (existsb (has_key u c) (table b)) eqn:Hin.
  - destruct (filter_has_key_cons _ _ _ Hin) as (r0 & rs & Hfl & _).
    unfold insert_or_append, with_cursor, except_DatabaseError, bind.
    rewrite _select_run by assumption. rewrite Hfl, Hf; simpl.
    destruct (value r0) as [bs|]; [|simpl; now rewrite Hf].
    destruct (loads bs) as [d|]; [|simpl; now rewrite Hf].
    destruct (truth d).
    + destruct d as [|old|t items]; try (simpl; now rewrite Hf).
      unfold _update. rewrite execute_bound by (simpl; now rewrite Hu, Hc). simpl.
      rewrite Hf; simpl. now rewrite Hf.
    + unfold _insert. destruct (bindable topic) eqn:Ht.
      * rewrite execute_bound by (simpl; now rewrite Hu, Hc, Ht). simpl.
        rewrite Hf, Hin; simpl. now rewrite Hf.
      * rewrite execute_unbound by (simpl; now rewrite Hu, Hc, Ht). simpl. now rewrite Hf.
  - destruct (bindable topic) eqn:Ht.
    + destruct (insert_or_append_absent K u c e topic skip b Hf Hin Hu Hc Ht)
        as (b' & -> & Hq & _). exact Hq.
    + rewrite (insert_or_append_absent_topic K u c e topic skip b); auto;
        [simpl|]; now rewrite Hf.
Qed.

Lemma primary_key_snoc t r :
  primary_key t -> existsb (has_key (user_id r) (conversation_id r)) t = false ->
  primary_key (t ++ [r]).
Proof.
  unfold primary_key. intros Hpk Habs. rewrite map_app; simpl.
  apply NoDup_app. split; [exact Hpk|]. split; [|apply NoDup_singleton].
  intros k Hk Hr. apply list_elem_of_singleton in Hr. subst k.
  rewrite map_fmap in Hk. apply list_elem_of_fmap in Hk as (x & Hx & Hin).
  assert (existsb (has_key (user_id r) (conversation_id r)) t = true); [|congruence].
  apply existsb_exists. exists x. split; [now apply list_elem_of_In|].
  apply has_key_eq. now rewrite <- Hx.
Qed.

Lemma row_key_touch now v u c t :
  map row_key (map (fun r => if has_key u c r then touch now v r else r) t) = map row_key t.
Proof.
  rewrite map_map. apply map_ext. intros r. now destruct (has_key u c r).
Qed.



End Capacity.




(** ** [get], [delete] and [list] in full *)

Lemma construct_key_passes u c skip s :
  skip = true \/ (check_suid u = true /\ check_suid c = true) ->
  construct_key u c skip s = (inr tt, s).
Proof.
  intros [->|[Hu Hc]]; unfold construct_key; [reflexivity|].
  rewrite Hu, Hc. now destruct skip.
Qed.

Section Methods.
Context {codec : EntryCodec}.

(** [get] validates first: a rejected identifier costs no statement. *)
Lemma get_rejects_before_backend u c b :
  check_suid u && check_suid c = false ->
  get u c false b = (inl InvalidIdentifier, b).
Proof.
  intros H. unfold get, with_cursor, bind, construct_key. now rewrite H.
Qed.

Lemma get_checks_or_rejects u c skip b :
  get u c skip b = (inl InvalidIdentifier, b) \/
  (skip = true \/ (check_suid u = true /\ check_suid c = true)).
Proof.
  destruct skip; [right; now left|].
  destruct (check_suid u && check_suid c) eqn:E.
  - right. right. now apply andb_true_iff.
  - left. now apply get_rejects_before_backend.
Qed.

Lemma get_run u c skip b :
  skip = true \/ (check_suid u = true /\ check_suid c = true) ->
  bindable u = true -> bindable c = true ->
  get u c skip b =
  (match hd None (faults b) with
   | Some e => inl (surfaced "PostgresCache.get" e)
   | None =>
       match filter (has_key u c) (table b) with
       | [] => inr []
       | r :: _ =>
           match value r with
           | None => inl (Builtin TypeError)
           | Some bs =>
               match loads bs with
               | None => inl (Builtin ValueError)
               | Some d => history_of d
               end
           end
       end
   end, sent b (table b)).
Proof.
  intros Hid Hu Hc. unfold get, with_cursor, bind. rewrite (construct_key_passes _ _ _ _ Hid).
  unfold except_DatabaseError, bind, surfaced. rewrite _select_run by assumption.
  destruct (hd None (faults b)) as [e|]; [now destruct (is_DatabaseError e)|].
  destruct (filter (has_key u c) (table b)) as [|r rs]; [reflexivity|].
  destruct (value r) as [bs|]; [|reflexivity].
  destruct (loads bs) as [d|]; [|reflexivity].
  unfold history_of.
  destruct d as [|l|t [items|]]; simpl; try reflexivity.
  - destruct (from_dicts l); reflexivity.
  - destruct (from_dicts items); reflexivity.
Qed.

(** With its check skipped, [get] stops at an identifier the driver
    cannot bind, before anything is sent. *)
Lemma get_unbound u c skip b :
  skip = true \/ (check_suid u = true /\ check_suid c = true) ->
  bindable u && bindable c = false ->
  get u c skip b = (inl (Builtin ValueError), b).
Proof.
  intros Hid Hb. unfold get, with_cursor, bind. rewrite (construct_key_passes _ _ _ _ Hid).
  unfold except_DatabaseError, bind. now rewrite (_select_unbound u c _ Hb).
Qed.

Lemma delete_run u c skip b :
  bindable u = true -> bindable c = true ->
  delete u c skip b =
  match hd None (faults b) with
  | Some e => (inl (surfaced "PostgresCache.delete" e), sent b (table b))
  | None => (inl (CacheError "PostgresCache.delete" ProgrammingError),
             sent b (filter (fun r => negb (has_key u c r)) (table b)))
  end.
Proof.
  intros Hu Hc. unfold delete, with_cursor, except_DatabaseError, _delete, bind, surfaced.
  rewrite execute_bound by (simpl; now rewrite Hu, Hc). simpl.
  destruct (hd None (faults b)) as [e|]; [now destruct (is_DatabaseError e)|reflexivity].
Qed.

Lemma delete_unbound u c skip b :
  bindable u && bindable c = false ->
  delete u c skip b = (inl (Builtin ValueError), b).
Proof.
  intros Hb. unfold delete, with_cursor, except_DatabaseError, _delete, bind.
  rewrite execute_unbound; [reflexivity|]. simpl. now rewrite andb_true_r.
Qed.

Lemma list_run u skip b :
  bindable u = true ->
  list_ u skip b =
  (match hd None (faults b) with
   | Some e => inl (surfaced "PostgresCache.list" e)
   | None => inr (map conversation_of
                      (order_by (ties b (calls b)) newer_eq
                         (filter (fun r => String.eqb (user_id r) u) (table b))))
   end, sent b (table b)).
Proof.
  intros Hu. unfold list_, with_cursor, except_DatabaseError, bind, surfaced.
  rewrite execute_bound by (simpl; now rewrite Hu). simpl.
  destruct (hd None (faults b)) as [e|]; [now destruct (is_DatabaseError e)|].
  simpl. now rewrite map_map.
Qed.

Lemma list_unbound u skip b :
  bindable u = false -> list_ u skip b = (inl (Builtin ValueError), b).
Proof.
  intros Hu. unfold list_, with_cursor, except_DatabaseError, bind.
  rewrite execute_unbound; [reflexivity|]. simpl. now rewrite Hu.
Qed.

End Methods.

(** ** Reading back what was appended *)

Section ReadBack.
Context {codec : EntryCodec} {rt : RoundTrip codec}.
Variables (u c : string).

Lemma from_dicts_to_dict l : from_dicts (map to_dict l) = inr l.
Proof using Type*.
  induction l as [|e l IH]; simpl; [reflexivity|].
  now rewrite from_dict_to_dict, IH.
Qed.

Lemma history_of_to_dict l : history_of (DList (map to_dict l)) = inr l.
Proof using Type*. unfold history_of; simpl. now rewrite from_dicts_to_dict. Qed.

Lemma filter_has_key_touch now v t :
  filter (has_key u c) (map (fun r => if has_key u c r then touch now v r else r) t) =
  map (touch now v) (filter (has_key u c) t).
Proof.
  induction t as [|r t IH]; simpl; [reflexivity|].
  destruct (has_key u c r) eqn:E.
  - rewrite !filter_cons_True by (apply Is_true_true; assumption).
    simpl. now rewrite IH.
  - rewrite !filter_cons_False by (rewrite Is_true_true; congruence).
    exact IH.
Qed.

Lemma stores_get l b skip :
  stores u c l b ->
  skip = true \/ (check_suid u = true /\ check_suid c = true) ->
  fst (get u c skip b) = inr l.
Proof using Type*.
  intros (Hf & _ & Hu & Hc & r & Hr & Hv) Hid.
  rewrite (get_run u c skip b Hid Hu Hc), Hf; simpl.
  destruct (filter (has_key u c) (table b)) as [|r' rs]; [discriminate|].
  injection Hr as ->. rewrite Hv, loads_dumps. apply history_of_to_dict.
Qed.

(** The append branch on a server that answers, for a row that stores a
    non-empty list. *)
Lemma append_run K l b e topic skip r rs :
  faults b = [] -> bindable u = true -> bindable c = true ->
  filter (has_key u c) (table b) = r :: rs ->
  value r = Some (dumps (map to_dict l)) -> l <> [] ->
  insert_or_append K u c e topic skip b =
    (inr tt,
     sent (sent b (table b))
          (map (fun r0 => if has_key u c r0
                          then touch (clock b) (dumps (map to_dict (l ++ [e]))) r0
                          else r0) (table b))).
Proof using Type*.
  intros Hf Hu Hc Hfl Hv Hne.
  unfold insert_or_append, with_cursor, except_DatabaseError, bind.
  rewrite _select_run by assumption. rewrite Hf, Hfl; simpl. rewrite Hv, loads_dumps.
  destruct l as [|x l]; [contradiction|]. simpl.
  unfold _update. rewrite execute_bound by (simpl; now rewrite Hu, Hc). simpl.
  rewrite Hf. simpl. now rewrite map_app.
Qed.

Lemma stores_step K l b call :
  stores u c l b ->
  call_user_id call = u -> call_conversation_id call = c ->
  stores u c (l ++ [call_entry call]) (step K call b).
Proof using Type*.
  intros (Hf & Hne & Hu & Hc & r & Hr & Hv) Hcu Hcc. unfold step. rewrite Hcu, Hcc.
  set (b0 := at_time (call_time call) b).
  split; [now apply insert_or_append_quiet|].
  split; [now destruct l|]. split; [exact Hu|]. split; [exact Hc|].
  destruct (filter (has_key u c) (table b)) as [|r' rs] eqn:Hfl; [discriminate|].
  injection Hr as ->.
  rewrite (append_run K l b0 (call_entry call) (call_topic_summary call) (call_skip call)
             r rs Hf Hu Hc Hfl Hv Hne); simpl.
  rewrite filter_has_key_touch, Hfl; simpl.
  eexists. split; reflexivity.
Qed.

Lemma stores_first K b call :
  faults b = [] ->
  call_user_id call = u -> call_conversation_id call = c ->
  existsb (has_key u c) (table b) = false ->
  existsb (has_key u c) (table (step K call b)) = true ->
  stores u c [call_entry call] (step K call b).
Proof.
  intros Hf Hcu Hcc Habs Hin. unfold step in *. rewrite Hcu, Hcc in *.
  set (b0 := at_time (call_time call) b) in *.
  assert (Hf0 : faults b0 = []) by exact Hf.
  destruct (bindable u && bindable c) eqn:Hb; cycle 1.
  { rewrite (insert_or_append_unbound K u c _ _ _ b0 Hb) in Hin. simpl in Hin. congruence. }
  apply andb_true_iff in Hb as [Hu Hc].
  destruct (bindable (call_topic_summary call)) eqn:Ht; cycle 1.
  { rewrite (insert_or_append_absent_topic K u c _ _ _ b0) in Hin
      by (auto; now rewrite Hf0).
    simpl in Hin. congruence. }
  destruct (insert_or_append_absent K u c (call_entry call) (call_topic_summary call)
              (call_skip call) b0 Hf Habs Hu Hc Ht) as (b' & Hrun & Hq & _ & Htab).
  rewrite Hrun in *; simpl in *.
  split; [exact Hq|]. split; [discriminate|]. split; [exact Hu|]. split; [exact Hc|].
  destruct (filter_has_key_cons _ _ _ Hin) as (r & rs & Hfl & Hr & Hk).
  exists r. split; [now rewrite Hfl|].
  assert (Hr1 : r ∈ table b0 ++ [new_row u c (call_entry call) (call_topic_summary call) (clock b0)]).
  { rewrite Htab in Hr. destruct (_ && _); [|exact Hr]. now apply evict_subseteq in Hr. }
  apply elem_of_app in Hr1 as [Hr1|Hr1].
  - exfalso. assert (existsb (has_key u c) (table b) = true); [|congruence].
    apply existsb_exists. exists r. split; [now apply list_elem_of_In|exact Hk].
  - apply list_elem_of_singleton in Hr1. now subst r.
Qed.

Lemma stores_run K l b cs :
  stores u c l b ->
  Forall (fun call => call_user_id call = u /\ call_conversation_id call = c) cs ->
  stores u c (l ++ map call_entry cs) (run_calls K cs b).
Proof using Type*.
  intros Hl Hcs. revert l b Hl.
  induction Hcs as [|call cs [Hu Hc] _ IH]; intros l b Hl; simpl.
  - now rewrite app_nil_r.
  - change (call_entry call :: map call_entry cs)
      with ([call_entry call] ++ map call_entry cs).
    rewrite app_assoc. apply IH, stores_step; assumption.
Qed.

End ReadBack.

(** C2 (amended).  For every key [(u, c)] and every sequence of
    [insert_or_append] calls for that key on a server that answers, the
    first taking the insert branch (the key has no row) and its record
    not being evicted by that call's own cleanup, a subsequent [get] for
    the key, whose identifiers pass its check or whose check is skipped,
    returns exactly the entries of the calls, in the order they were
    made: every later call finds the stored list, adds its entry at the
    end and writes the list back. *)
Theorem get_returns_appended_entries {codec : EntryCodec} {rt : RoundTrip codec}
    (K : Z) (u c : string) (first : Call) (rest : list Call) (b : Backend) (skip : bool) :
  faults b = [] ->
  Forall (fun call => call_user_id call = u /\ call_conversation_id call = c) (first :: rest) ->
  existsb (has_key u c) (table b) = false ->
  existsb (has_key u c) (table (step K first b)) = true ->
  skip = true \/ (check_suid u = true /\ check_suid c = true) ->
  fst (get u c skip (run_calls K (first :: rest) b)) = inr (map call_entry (first :: rest)).
Proof.
  intros Hf Hkeys Habs Hkept Hid.
  apply Forall_cons in Hkeys as [[Hu Hc] Hrest].
  pose proof (stores_first u c K b first Hf Hu Hc Habs Hkept) as H1.
  pose proof (stores_run u c K _ _ rest H1 Hrest) as Hn.
  simpl. apply (stores_get u c _ _ skip Hn Hid).
Qed.

Lemma get_returns_appended_entries_witness :
  let u := Sample.valid_user in
  let c := Sample.valid_conversation in
  let first := Sample.call 1 u c Byte.x01 in
  let rest := [Sample.call 2 u c Byte.x02; Sample.call 3 u c Byte.x03] in
  faults empty_backend = [] /\
  existsb (has_key u c) (table empty_backend) = false /\
  existsb (has_key u c) (table (step 3 first empty_backend)) = true /\
  fst (@get ByteCodec.codec u c false (run_calls 3 (first :: rest) empty_backend)) =
    inr [Byte.x01; Byte.x02; Byte.x03].
Proof.
  intros u c first rest.
  split; [reflexivity|]. split; [reflexivity|]. split; [reflexivity|].
  apply (@get_returns_appended_entries ByteCodec.codec ByteCodec.round_trip
           3 u c first rest empty_backend false).
  - reflexivity.
  - repeat constructor.
  - reflexivity.
  - reflexivity.
  - right. split; reflexivity.
Defined.

(** With capacity [0] a single successful call takes the insert branch,
    its own cleanup evicts the record, and [get] returns no entry.  And
    for a key whose user id is no UUID, which [insert_or_append] stores
    all the same, [get] rejects the identifier. *)
Lemma get_after_evicted_insert_counterexample :
  let u := Sample.valid_user in
  let c := Sample.valid_conversation in
  (existsb (has_key u c) (table empty_backend) = false /\
   fst (@insert_or_append ByteCodec.codec 0 u c Byte.x01 "topic" false
          (at_time 1 empty_backend)) = inr tt /\
   fst (@get ByteCodec.codec u c false (step 0 (Sample.call 1 u c Byte.x01) empty_backend)) =
     inr []) /\
  (fst (@insert_or_append ByteCodec.codec 3 "not-a-uuid" c Byte.x01 "topic" false
          (at_time 1 empty_backend)) = inr tt /\
   fst (@get ByteCodec.codec "not-a-uuid" c false
          (step 3 (Sample.call 1 "not-a-uuid" c Byte.x01) empty_backend)) =
     inl InvalidIdentifier).
Proof. vm_compute. repeat split. Qed.
(** ** The append branch leaves every other record alone *)

Lemma Forall2_map_self {A} (R : A -> A -> Prop) (f : A -> A) (l : list A) :
  (forall x, x ∈ l -> R x (f x)) -> Forall2 R l (map f l).
Proof.
  induction l as [|a l IH]; intros H; simpl; constructor.
  - apply H. left.
  - apply IH. intros x Hx. apply H. now right.
Qed.

Lemma head_filter_elem_of {A} (P : A -> Prop) `{forall x, Decision (P x)} (l : list A) x :
  head (filter P l) = Some x -> x ∈ l /\ P x.
Proof.
  intros Hh. assert (Hx : x ∈ filter P l).
  { destruct (filter P l); [discriminate|]. injection Hh as ->. left. }
  apply list_elem_of_filter in Hx. tauto.
Qed.

(** C7.  A call of [insert_or_append] whose key already has a record
    deletes no record of any key, whatever the server does: the table
    keeps the same keys in the same places, every record of another key
    is unchanged, and the record of the key keeps its key and topic and is
    either unchanged or holds the list it held with the new entry added
    at the end. *)
Theorem append_deletes_nothing {codec : EntryCodec}
    (K : Z) (u c : string) (e : CacheEntry) (topic : string) (skip : bool) (b : Backend) :
  primary_key (table b) ->
  existsb (has_key u c) (table b) = true ->
  map row_key (table (snd (insert_or_append K u c e topic skip b))) = map row_key (table b) /\
  Forall2
    (fun old new =>
       if has_key u c old
       then row_key new = row_key old /\
            topic_summary new = topic_summary old /\
            (new = old \/
             exists bs l, value old = Some bs /\ loads bs = Some (DList l) /\
                          value new = Some (dumps (l ++ [to_dict e])))
       else new = old)
    (table b) (table (snd (insert_or_append K u c e topic skip b))).
Proof.
  intros Hpk Hin.
  destruct (insert_or_append_present K u c e topic skip b Hin)
    as [(ex & _ & ->)|(_ & _ & _ & _ & r0 & bs & old & Hr0 & Hv & Hl & _ & ->)].
  - split; [reflexivity|].
    apply Forall_Forall2_diag, Forall_forall. intros r _.
    destruct (has_key u c r); auto.
  - split; [apply row_key_touch|].
    apply Forall2_map_self. intros r Hr.
    destruct (has_key u c r) eqn:Hk; [|reflexivity].
    repeat split. right. exists bs, old.
    apply head_filter_elem_of in Hr0 as [Hr0 Hk0]. apply Is_true_true in Hk0.
    assert (r = r0) as ->.
    { apply (primary_key_inj (table b)); auto.
      apply has_key_eq in Hk, Hk0. congruence. }
    auto.
Qed.

Lemma append_deletes_nothing_witness :
  let t' := table (snd (@insert_or_append ByteCodec.codec 2 "u" "A" Byte.x07 "other" false
                          (at_time 5 Sample.two_rows))) in
  primary_key (table Sample.two_rows) /\
  existsb (has_key "u" "A") (table Sample.two_rows) = true /\
  t' = [Sample.row "u" "A" [Byte.x01; Byte.x07] 5; Sample.row "u" "B" [Byte.x02] 2] /\
  map row_key t' = map row_key (table Sample.two_rows).
Proof.
  assert (Hpk : primary_key (table Sample.two_rows)).
  { apply (bool_decide_unpack _). vm_compute. exact I. }
  split; [exact Hpk|]. split; [reflexivity|]. split; [reflexivity|].
  apply (@append_deletes_nothing ByteCodec.codec 2 "u" "A" Byte.x07 "other" false
           (at_time 5 Sample.two_rows) Hpk).
  reflexivity.
Defined.

(** C8.  A successful append leaves the record's [topic_summary] (and
    key) as they were and sets its [updated_at] to the current time; no
    field of any other record changes. *)
Theorem append_refreshes_timestamp {codec : EntryCodec}
    (K : Z) (u c : string) (e : CacheEntry) (topic : string) (skip : bool) (b : Backend) :
  existsb (has_key u c) (table b) = true ->
  fst (insert_or_append K u c e topic skip b) = inr tt ->
  Forall2
    (fun old new =>
       if has_key u c old
       then row_key new = row_key old /\
            topic_summary new = topic_summary old /\
            updated_at new = Some (clock b)
       else new = old)
    (table b) (table (snd (insert_or_append K u c e topic skip b))).
Proof.
  intros Hin Hok.
  destruct (insert_or_append_present K u c e topic skip b Hin)
    as [(ex & Hex & _)|(_ & _ & _ & _ & r0 & bs & old & _ & _ & _ & _ & ->)].
  - rewrite Hok in Hex. discriminate.
  - apply Forall2_map_self. intros r _.
    destruct (has_key u c r); [|reflexivity].
    repeat split.
Qed.

Lemma append_refreshes_timestamp_witness :
  let b := at_time 5 Sample.two_rows in
  existsb (has_key "u" "A") (table b) = true /\
  fst (@insert_or_append ByteCodec.codec 2 "u" "A" Byte.x07 "other" false b) = inr tt /\
  Forall2
    (fun old new =>
       if has_key "u" "A" old
       then row_key new = row_key old /\
            topic_summary new = topic_summary old /\
            updated_at new = Some 5
       else new = old)
    (table b)
    (table (snd (@insert_or_append ByteCodec.codec 2 "u" "A" Byte.x07 "other" false b))).
Proof.
  intros b. split; [reflexivity|]. split; [reflexivity|].
  apply (@append_refreshes_timestamp ByteCodec.codec 2 "u" "A" Byte.x07 "other" false b);
    reflexivity.
Defined.
(** ** Identifier validation *)

Create HintDb silent.

Section Validation.
Context {codec : EntryCodec}.

(** [insert_or_append] has no validation step: none of the operations it
    is made of raises InvalidIdentifier. *)
Lemma silent_ret {A} (x : A) : never_InvalidIdentifier (ret x).
Proof. intros s. discriminate. Qed.

Lemma silent_raise_Builtin {A} e : never_InvalidIdentifier (@raise A (Builtin e)).
Proof. intros s. discriminate. Qed.

Lemma silent_bind {A B} (m : M A) (k : A -> M B) :
  never_InvalidIdentifier m -> (forall x, never_InvalidIdentifier (k x)) ->
  never_InvalidIdentifier (bind m k).
Proof.
  intros Hm Hk s. unfold bind. specialize (Hm s).
  destruct (m s) as [[ex|x] s']; [|apply Hk].
  simpl in *. intros [= ->]. now apply Hm.
Qed.

Lemma silent_execute q : never_InvalidIdentifier (execute q).
Proof.
  intros s. unfold execute. destruct (negb _); [discriminate|].
  destruct (hd None (faults (conn s))); [discriminate|].
  destruct (run_statement _ _ q _) as [|[t rs]]; discriminate.
Qed.

Lemma silent_fetchone : never_InvalidIdentifier fetchone.
Proof. intros s. unfold fetchone. destruct (results s) as [[|r rs]|]; discriminate. Qed.

Lemma silent_except {A} op (m : M A) :
  never_InvalidIdentifier m -> never_InvalidIdentifier (except_DatabaseError op m).
Proof.
  intros Hm s. unfold except_DatabaseError. specialize (Hm s).
  destruct (m s) as [[ex|x] s']; [|discriminate].
  destruct ex; try exact Hm. destruct (is_DatabaseError e); discriminate.
Qed.

#[local] Hint Resolve silent_ret silent_raise_Builtin silent_bind silent_execute
  silent_fetchone silent_except : silent.

Lemma silent_select u c : never_InvalidIdentifier (_select u c).
Proof.
  unfold _select. apply silent_bind; [auto with silent|]. intros _.
  apply silent_bind; [auto with silent|]. intros [value|]; [|auto with silent].
  destruct (negb _); [auto with silent|].
  destruct value as [|[[bs|]| |] ?]; auto with silent.
  destruct (loads bs); auto with silent.
Qed.

Lemma silent_cleanup K : never_InvalidIdentifier (_cleanup K).
Proof.
  unfold _cleanup. apply silent_bind; [auto with silent|]. intros _.
  apply silent_bind; [auto with silent|]. intros [[|[| |count] ?]|]; auto with silent.
  destruct (0 <? _); auto with silent.
Qed.

#[local] Hint Resolve silent_select silent_cleanup : silent.

Lemma insert_or_append_never_InvalidIdentifier K u c e topic skip b :
  fst (insert_or_append K u c e topic skip b) <> inl InvalidIdentifier.
Proof.
  assert (H : never_InvalidIdentifier
    (except_DatabaseError "PostgresCache.insert_or_append"
       (let* old_value := _select u c in
        if truth old_value then
          match old_value with
          | DList old_value => _update u c (dumps (old_value ++ [to_dict e]))
          | _ => raise (Builtin AttributeError)
          end
        else run _insert u c (dumps [to_dict e]) topic then _cleanup K))).
  { apply silent_except, silent_bind; [auto with silent|].
    unfold _update, _insert. intros d. destruct (truth d); [|auto with silent].
    destruct d; auto with silent. }
  unfold insert_or_append, with_cursor. specialize (H (mkSession b None)).
  destruct (except_DatabaseError _ _ _) as [r s]. exact H.
Qed.

End Validation.

(** C3.  [insert_or_append] never raises InvalidIdentifier, whatever the
    identifiers.  [get] rejects a non-UUID [user_id] with
    InvalidIdentifier before any statement is sent, the table and the call
    counter unchanged; [insert_or_append] on the same identifiers
    performs no check: it sends its three statements and stores the
    record. *)
Theorem insert_or_append_accepts_malformed_identifier {codec : EntryCodec}
    (K : Z) (u c : string) (e : CacheEntry) (topic : string) (skip : bool) (b : Backend) :
  fst (insert_or_append K u c e topic skip b) <> inl InvalidIdentifier /\
  check_suid "not-a-uuid" = false /\
  @get ByteCodec.codec "not-a-uuid" Sample.valid_conversation false empty_backend =
    (inl InvalidIdentifier, empty_backend) /\
  @insert_or_append ByteCodec.codec 3 "not-a-uuid" Sample.valid_conversation Byte.x01
      "topic" false empty_backend =
    (inr tt,
     {| table := [Sample.row "not-a-uuid" Sample.valid_conversation [Byte.x01] 0];
        clock := 0; faults := []; calls := 3; ties := storage_order |}).
Proof.
  split; [apply insert_or_append_never_InvalidIdentifier|].
  split; [reflexivity|]. split.
  - apply get_rejects_before_backend. reflexivity.
  - vm_compute. reflexivity.
Qed.

(** C4.  [delete] never returns a boolean.  Its DELETE statement has no
    RETURNING clause, so the [fetchone] that follows finds no result set
    and raises ProgrammingError, which leaves as a CacheError: so it is
    for a key that is stored (its row is gone all the same) and for a key
    that is not. *)
Theorem delete_never_returns (u c : string) (skip : bool) (b : Backend) :
  (exists ex, fst (delete u c skip b) = inl ex) /\
  delete "u" "A" false Sample.two_rows =
    (inl (CacheError "PostgresCache.delete" ProgrammingError),
     {| table := [Sample.row "u" "B" [Byte.x02] 2]; clock := 0; faults := []; calls := 1;
        ties := storage_order |}) /\
  delete "u" "Z" false Sample.two_rows =
    (inl (CacheError "PostgresCache.delete" ProgrammingError),
     {| table := table Sample.two_rows; clock := 0; faults := []; calls := 1;
        ties := storage_order |}).
Proof.
  split.
  - destruct (bindable u && bindable c) eqn:Hb.
    + apply andb_true_iff in Hb as [Hu Hc]. rewrite (delete_run u c skip b Hu Hc).
      destruct (hd None (faults b)); eexists; reflexivity.
    + rewrite (delete_unbound u c skip b Hb). eexists; reflexivity.
  - split; rewrite delete_run; reflexivity.
Qed.





(** C6.  For a key with no stored record, [get] with identifiers that
    pass the check, on a server that answers, returns the empty list and
    raises nothing; it costs one statement and changes no row.  So it is
    too when the check is skipped, for identifiers the driver can
    bind. *)
Theorem get_missing_record_is_empty {codec : EntryCodec}
    (u c : string) (skip : bool) (b : Backend) :
  skip = true \/ (check_suid u = true /\ check_suid c = true) ->
  (skip = true -> bindable u = true /\ bindable c = true) ->
  hd None (faults b) = None ->
  existsb (has_key u c) (table b) = false ->
  get u c skip b = (inr [], sent b (table b)).
Proof.
  intros Hid Hskip Hf Habs.
  destruct (checked_bindable u c skip Hid Hskip) as [Hu Hc].
  rewrite (get_run u c skip b Hid Hu Hc), Hf.
  now rewrite (filter_has_key_nil u c (table b) Habs).
Qed.

Lemma get_missing_record_is_empty_witness :
  existsb (has_key Sample.valid_user Sample.valid_conversation) (table Sample.two_rows) = false /\
  @get ByteCodec.codec Sample.valid_user Sample.valid_conversation false Sample.two_rows =
    (inr [], sent Sample.two_rows (table Sample.two_rows)).
Proof.
  split; [reflexivity|].
  apply (@get_missing_record_is_empty ByteCodec.codec).
  - right. split; reflexivity.
  - intros H. discriminate H.
  - reflexivity.
  - reflexivity.
Defined.

(** C10 (amended).  [delete] and [list] perform no identifier validation:
    whatever the strings, neither raises InvalidIdentifier.  A string the
    driver can bind goes to the statement as it is and matches rows by
    plain equality, so an identifier under which nothing is stored matches
    no row; a string with a NUL character in it is refused by the driver
    with a ValueError, and nothing is sent. *)
Theorem delete_and_list_do_not_validate (u c : string) (skip : bool) (b : Backend) :
  fst (delete u c skip b) <> inl InvalidIdentifier /\
  fst (list_ u skip b) <> inl InvalidIdentifier /\
  (hd None (faults b) = None -> bindable u = true -> bindable c = true ->
     table (snd (delete u c skip b)) = filter (fun r => negb (has_key u c r)) (table b) /\
     (existsb (has_key u c) (table b) = false ->
      table (snd (delete u c skip b)) = table b)) /\
  (hd None (faults b) = None -> bindable u = true ->
     fst (list_ u skip b) =
       inr (map conversation_of
              (order_by (ties b (calls b)) newer_eq
                 (filter (fun r => String.eqb (user_id r) u) (table b)))) /\
     (existsb (fun r => String.eqb (user_id r) u) (table b) = false ->
      list_ u skip b = (inr [], sent b (table b)))) /\
  (bindable u && bindable c = false -> delete u c skip b = (inl (Builtin ValueError), b)) /\
  (bindable u = false -> list_ u skip b = (inl (Builtin ValueError), b)).
Proof.
  split; [|split; [|split; [|split; [|split]]]].
  - destruct (bindable u && bindable c) eqn:Hb.
    + apply andb_true_iff in Hb as [Hu Hc]. rewrite (delete_run u c skip b Hu Hc).
      destruct (hd None (faults b)) as [e|]; simpl; [|discriminate].
      unfold surfaced. destruct (is_DatabaseError e); discriminate.
    + rewrite (delete_unbound u c skip b Hb). discriminate.
  - destruct (bindable u) eqn:Hu.
    + rewrite (list_run u skip b Hu). simpl.
      destruct (hd None (faults b)) as [e|]; [|discriminate].
      unfold surfaced. destruct (is_DatabaseError e); discriminate.
    + rewrite (list_unbound u skip b Hu). discriminate.
  - intros Hf Hu Hc. rewrite (delete_run u c skip b Hu Hc), Hf. simpl.
    split; [reflexivity|]. intros Habs. apply filter_all. intros r Hr.
    apply Is_true_true, negb_true_iff.
    destruct (has_key u c r) eqn:E; [|reflexivity].
    assert (existsb (has_key u c) (table b) = true); [|congruence].
    apply existsb_exists. exists r. split; [now apply list_elem_of_In|exact E].
  - intros Hf Hu. rewrite (list_run u skip b Hu), Hf. simpl.
    split; [reflexivity|]. intros Habs. f_equal. f_equal. rewrite filter_none; [reflexivity|].
    intros r Hr Hk. apply Is_true_true in Hk.
    assert (existsb (fun r => String.eqb (user_id r) u) (table b) = true); [|congruence].
    apply existsb_exists. exists r. split; [now apply list_elem_of_In|exact Hk].
  - apply delete_unbound.
  - apply list_unbound.
Qed.

Lemma delete_and_list_do_not_validate_witness :
  hd None (faults Sample.two_rows) = None /\
  bindable "not-a-uuid" = true /\
  existsb (fun r => String.eqb (user_id r) "not-a-uuid") (table Sample.two_rows) = false /\
  list_ "not-a-uuid" false Sample.two_rows = (inr [], sent Sample.two_rows (table Sample.two_rows)) /\
  bindable Sample.with_nul = false /\
  list_ Sample.with_nul false Sample.two_rows = (inl (Builtin ValueError), Sample.two_rows).
Proof.
  split; [reflexivity|]. split; [reflexivity|]. split; [reflexivity|].
  split.
  - apply (proj2 (proj1 (proj2 (proj2 (proj2
             (delete_and_list_do_not_validate "not-a-uuid" "also-not" false Sample.two_rows))))
             eq_refl eq_refl)).
    reflexivity.
  - split; [reflexivity|].
    apply (proj2 (proj2 (proj2 (proj2 (proj2
             (delete_and_list_do_not_validate Sample.with_nul "A" false Sample.two_rows)))))).
    reflexivity.
Defined.

(** Records stored under a user id that is no UUID (stored with
    [skip_user_id_check] set): [list] called with that id returns them,
    so a malformed identifier does not always match no rows.  And a user
    id with a NUL character in it is not passed to the query at all. *)
Lemma list_malformed_identifier_counterexample :
  let stored :=
    run_calls 3 [@mkCall ByteCodec.codec 1 "u" "A" Byte.x01 "topic" true;
                 @mkCall ByteCodec.codec 2 "u" "B" Byte.x02 "topic" true]
              empty_backend in
  check_suid "u" = false /\
  table stored = table Sample.two_rows /\
  fst (list_ "u" false stored) =
    inr [mkConversation (Some "B") (Some "topic"); mkConversation (Some "A") (Some "topic")] /\
  check_suid Sample.with_nul = false /\
  list_ Sample.with_nul false stored = (inl (Builtin ValueError), stored).
Proof. vm_compute. repeat split. Qed.

(** ** The quota never goes negative *)

Module QuotaFacts.
Import QuotaLimiter.

Lemma remaining_nonnegative s st : nonnegative st -> 0 <= remaining s st.
Proof.
  intros [Hi Hq]. unfold remaining.
  destruct (quota st !! s) as [q|] eqn:E; simpl; [|exact Hi].
  exact (map_Forall_lookup_1 _ _ _ _ Hq E).
Qed.

Lemma set_quota_nonnegative s q st :
  0 <= q -> nonnegative st -> nonnegative (set_quota s q st).
Proof.
  intros Hq [Hi Hm]. split; [exact Hi|]. simpl.
  apply map_Forall_insert_2; assumption.
Qed.

Lemma remaining_set_quota s s' q st :
  remaining s' (set_quota s q st) = if decide (s = s') then q else remaining s' st.
Proof.
  unfold remaining, set_quota; simpl. rewrite lookup_insert.
  destruct (decide (s = s')); reflexivity.
Qed.

Lemma consume_tokens_nonnegative i o s st :
  nonnegative st -> nonnegative (snd (consume_tokens i o s st)).
Proof.
  intros Hst. unfold consume_tokens.
  destruct (i + o <=? remaining s st) eqn:E; simpl.
  - apply set_quota_nonnegative; [apply Z.leb_le in E; lia|exact Hst].
  - destruct (policy st); simpl; [|exact Hst].
    apply set_quota_nonnegative; [lia|exact Hst].
Qed.

Lemma consume_all_nonnegative calls st :
  nonnegative st -> nonnegative (consume_all calls st).
Proof.
  revert st. induction calls as [|[[i o] s] calls IH]; intros st Hst; simpl; [exact Hst|].
  apply IH, consume_tokens_nonnegative, Hst.
Qed.

End QuotaFacts.

(** C9.  Starting from a limiter with no negative counter, after every
    sequence of [consume_tokens] calls [available_quota] returns no
    negative value for any subject.  Each call takes exactly
    [input_tokens + output_tokens] off the subject's remaining budget when
    the budget covers it; when it does not, the budget is clamped at zero
    or the call fails and leaves the budget as it was, according to the
    limiter's policy; the budgets of the other subjects do not change, and
    no budget becomes negative. *)
Theorem consume_tokens_keeps_quota_nonnegative (st : QuotaLimiter.Limiter) :
  QuotaLimiter.nonnegative st ->
  (forall calls subject_id,
     0 <= fst (QuotaLimiter.available_quota subject_id (QuotaLimiter.consume_all calls st))) /\
  (forall input_tokens output_tokens subject_id,
     let left := QuotaLimiter.remaining subject_id st in
     let cost := input_tokens + output_tokens in
     let r := QuotaLimiter.consume_tokens input_tokens output_tokens subject_id st in
     (cost <= left ->
        fst r = inr tt /\ QuotaLimiter.remaining subject_id (snd r) = left - cost) /\
     (left < cost ->
        match QuotaLimiter.policy st with
        | QuotaLimiter.Clamp => fst r = inr tt /\ QuotaLimiter.remaining subject_id (snd r) = 0
        | QuotaLimiter.Fail => fst r = inl QuotaLimiter.QuotaExceeded /\ snd r = st
        end) /\
     (forall other, other <> subject_id ->
        QuotaLimiter.remaining other (snd r) = QuotaLimiter.remaining other st) /\
     0 <= QuotaLimiter.remaining subject_id (snd r)).
Proof.
  intros Hst. split.
  - intros calls s. simpl.
    apply QuotaFacts.remaining_nonnegative, QuotaFacts.consume_all_nonnegative, Hst.
  - intros i o s left cost r.
    assert (Hr : QuotaLimiter.nonnegative (snd r))
      by apply QuotaFacts.consume_tokens_nonnegative, Hst.
    split; [|split; [|split]].
    + intros Hle. unfold r, QuotaLimiter.consume_tokens. fold left cost.
      destruct (cost <=? left) eqn:E; [|apply Z.leb_gt in E; lia]. simpl.
      split; [reflexivity|].
      rewrite QuotaFacts.remaining_set_quota. now destruct (decide (s = s)).
    + intros Hlt. unfold r, QuotaLimiter.consume_tokens. fold left cost.
      destruct (cost <=? left) eqn:E; [apply Z.leb_le in E; lia|].
      destruct (QuotaLimiter.policy st); simpl; split; try reflexivity.
      rewrite QuotaFacts.remaining_set_quota. now destruct (decide (s = s)).
    + intros other Hne. unfold r, QuotaLimiter.consume_tokens. fold left cost.
      destruct (cost <=? left); simpl.
      * rewrite QuotaFacts.remaining_set_quota. destruct (decide (s = other)); congruence.
      * destruct (QuotaLimiter.policy st); simpl; [|reflexivity].
        rewrite QuotaFacts.remaining_set_quota. destruct (decide (s = other)); congruence.
    + apply QuotaFacts.remaining_nonnegative, Hr.
Qed.

Lemma consume_tokens_keeps_quota_nonnegative_witness :
  let st := QuotaLimiter.mkLimiter QuotaLimiter.Clamp 100 ∅ in
  QuotaLimiter.nonnegative st /\
  0 <= fst (QuotaLimiter.available_quota "alice"
              (QuotaLimiter.consume_all [(30, 50, "alice"); (40, 0, "alice")] st)).
Proof.
  intros st.
  assert (Hst : QuotaLimiter.nonnegative st).
  { split; simpl; [lia|apply map_Forall_empty]. }
  split; [exact Hst|].
  apply (proj1 (consume_tokens_keeps_quota_nonnegative st Hst)).
Defined.
(** * Further properties of the cache *)

(** ** Reading *)

Lemma newer_eq_total a b : newer_eq a b = false -> newer_eq b a = true.
Proof. apply ts_leb_total. Qed.

Lemma newer_eq_trans a b c : newer_eq a b = true -> newer_eq b c = true -> newer_eq a c = true.
Proof. unfold newer_eq. intros H1 H2. exact (ts_leb_trans _ _ _ H2 H1). Qed.

(** X1.  On a server that answers, [list] for a user id the driver can
    bind returns the conversations of that user and of no other, each
    stored one once, the most recently written first, in whatever order
    the server puts those written at the same time; no row changes. *)
Theorem list_newest_first (u : string) (skip : bool) (b : Backend) :
  hd None (faults b) = None ->
  bindable u = true ->
  exists rows,
    list_ u skip b = (inr (map conversation_of rows), sent b (table b)) /\
    rows ≡ₚ filter (fun r => String.eqb (user_id r) u) (table b) /\
    (forall r, r ∈ rows <-> r ∈ table b /\ user_id r = u) /\
    StronglySorted (fun r1 r2 => newer_eq r1 r2 = true) rows.
Proof.
  intros Hf Hu.
  exists (order_by (ties b (calls b)) newer_eq
            (filter (fun r => String.eqb (user_id r) u) (table b))).
  split; [rewrite (list_run u skip b Hu), Hf; reflexivity|].
  split; [apply order_by_Permutation|].
  split.
  - intros r. rewrite order_by_Permutation, list_elem_of_filter, Is_true_true, String.eqb_eq.
    tauto.
  - apply order_by_sorted; [apply newer_eq_total|apply newer_eq_trans].
Qed.

Lemma list_newest_first_witness :
  hd None (faults Sample.two_rows) = None /\
  bindable "u" = true /\
  exists rows,
    list_ "u" false Sample.two_rows =
      (inr (map conversation_of rows), sent Sample.two_rows (table Sample.two_rows)) /\
    rows ≡ₚ filter (fun r => String.eqb (user_id r) "u") (table Sample.two_rows) /\
    (forall r, r ∈ rows <-> r ∈ table Sample.two_rows /\ user_id r = "u") /\
    StronglySorted (fun r1 r2 => newer_eq r1 r2 = true) rows.
Proof.
  split; [reflexivity|]. split; [reflexivity|].
  apply (list_newest_first "u" false Sample.two_rows); reflexivity.
Defined.

(** X2.  [get] and [list] are read-only whatever their arguments and
    whatever the server does: no row changes.  [get] sends no statement
    when it rejects the identifiers or the driver cannot bind them, and
    exactly one otherwise; [list] sends exactly one, or none when the
    driver cannot bind the user id. *)
Theorem get_and_list_are_read_only {codec : EntryCodec}
    (u c : string) (skip : bool) (b : Backend) :
  table (snd (get u c skip b)) = table b /\
  table (snd (list_ u skip b)) = table b /\
  (calls (snd (get u c skip b)) =
     if negb skip && negb (check_suid u && check_suid c) then calls b
     else if bindable u && bindable c then S (calls b) else calls b) /\
  calls (snd (list_ u skip b)) = if bindable u then S (calls b) else calls b.
Proof.
  assert (Hget : forall Hid : skip = true \/ (check_suid u = true /\ check_suid c = true),
            table (snd (get u c skip b)) = table b /\
            calls (snd (get u c skip b)) =
              if bindable u && bindable c then S (calls b) else calls b).
  { intros Hid. destruct (bindable u && bindable c) eqn:Hb.
    - apply andb_true_iff in Hb as [Hu Hc]. now rewrite (get_run u c skip b Hid Hu Hc).
    - now rewrite (get_unbound u c skip b Hid Hb). }
  split; [|split; [|split]].
  - destruct (get_checks_or_rejects u c skip b) as [->|Hid]; [reflexivity|].
    apply (Hget Hid).
  - destruct (bindable u) eqn:Hu;
      [now rewrite (list_run u skip b Hu)|now rewrite (list_unbound u skip b Hu)].
  - destruct skip; simpl.
    + apply Hget. now left.
    + destruct (check_suid u && check_suid c) eqn:E; simpl.
      * apply andb_true_iff in E. apply Hget. now right.
      * now rewrite (get_rejects_before_backend u c b E).
  - destruct (bindable u) eqn:Hu;
      [now rewrite (list_run u skip b Hu)|now rewrite (list_unbound u skip b Hu)].
Qed.

(** ** What eviction spares *)







(** A clock that is only not behind the stored timestamps is not enough:
    the new record then ties with the newest stored one, and a server
    that puts it first of the two evicts it. *)
Lemma fresh_insert_may_lose_a_tie :
  let call := Sample.call 2 "u" "C" Byte.x03 in
  (forall r, r ∈ table Sample.against_C -> older_eq r (call_row call) = true) /\
  fst (@insert_or_append ByteCodec.codec 1 "u" "C" Byte.x03 "topic" false
         (at_time 2 Sample.against_C)) = inr tt /\
  table (step 1 call Sample.against_C) = [Sample.row "u" "B" [Byte.x02] 2] /\
  fst (@get ByteCodec.codec "u" "C" true (step 1 call Sample.against_C)) = inr [].
Proof.
  intros call. split; [|vm_compute; repeat split].
  intros r Hr. apply elem_of_cons in Hr as [->|Hr]; [reflexivity|].
  apply list_elem_of_singleton in Hr as ->. reflexivity.
Qed.

(** ** Writing on a server that may fail *)

(** X5.  The primary key is an invariant of the writes, whatever the
    server does and whether they succeed: after [insert_or_append] and
    after [delete] no two rows share (user_id, conversation_id). *)
Theorem writes_keep_primary_key {codec : EntryCodec}
    (K : Z) (u c : string) (e : CacheEntry) (topic : string) (skip : bool) (b : Backend) :
  primary_key (table b) ->
  primary_key (table (snd (insert_or_append K u c e topic skip b))) /\
  primary_key (table (snd (delete u c skip b))).
Proof.
  intros Hpk. split.
  - destruct (existsb (has_key u c) (table b)) eqn:Hin.
    + destruct (insert_or_append_present K u c e topic skip b Hin)
        as [(ex & _ & ->)|(_ & _ & _ & _ & r0 & bs & old & _ & _ & _ & _ & ->)];
        [exact Hpk|].
      unfold primary_key. now rewrite row_key_touch.
    + assert (Hpk1 : primary_key (table b ++ [new_row u c e topic (clock b)]))
        by (apply primary_key_snoc; assumption).
      destruct (insert_or_append_absent_cases K u c e topic skip b Hin)
        as [->|[->|[_ [rank ->]]]]; [exact Hpk|exact Hpk1|now apply primary_key_evict].
  - destruct (bindable u && bindable c) eqn:Hb;
      [|now rewrite (delete_unbound u c skip b Hb)].
    apply andb_true_iff in Hb as [Hu Hc]. rewrite (delete_run u c skip b Hu Hc).
    destruct (hd None (faults b)); [exact Hpk|]. simpl.
    unfold primary_key in *. rewrite !map_fmap in *.
    eapply sublist_NoDup; [exact Hpk|]. apply fmap_sublist, sublist_filter.
Qed.

Lemma writes_keep_primary_key_witness :
  primary_key (table Sample.unreachable) /\
  primary_key (table (snd (@insert_or_append ByteCodec.codec 1 "u" "C" Byte.x03 "topic" false
                             Sample.unreachable))).
Proof.
  assert (Hpk : primary_key (table Sample.unreachable)).
  { apply (bool_decide_unpack _). vm_compute. exact I. }
  split; [exact Hpk|].
  apply (proj1 (@writes_keep_primary_key ByteCodec.codec 1 "u" "C" Byte.x03 "topic" false
                  Sample.unreachable Hpk)).
Defined.



(** ** Deleting *)

Lemma deleted_key_absent u c t :
  existsb (has_key u c) (filter (fun r => negb (has_key u c r)) t) = false.
Proof.
  destruct (existsb _ _) eqn:E; [|reflexivity].
  apply existsb_has_key_elem_of in E as (r & Hr & Hk).
  apply list_elem_of_filter in Hr as [Hn _]. apply Is_true_true, negb_true_iff in Hn.
  apply has_key_eq in Hk. congruence.
Qed.

Lemma delete_length u c t :
  primary_key t ->
  length (filter (fun r => negb (has_key u c r)) t) =
    (length t - (if existsb (has_key u c) t then 1 else 0))%nat.
Proof.
  unfold primary_key. induction t as [|x t IH]; intros Hpk; [reflexivity|].
  simpl in Hpk. apply NoDup_cons in Hpk as [Hx Hpk]. simpl.
  destruct (has_key u c x) eqn:Hk; simpl.
  - rewrite filter_cons_False by (rewrite Hk; simpl; tauto).
    rewrite filter_all; [lia|]. intros r Hr. apply Is_true_true, negb_true_iff.
    destruct (has_key u c r) eqn:Hkr; [exfalso|reflexivity].
    apply Hx. apply has_key_eq in Hk, Hkr. rewrite Hk, <- Hkr, map_fmap.
    now apply list_elem_of_fmap_2.
  - rewrite filter_cons_True by (rewrite Hk; exact I).
    simpl. rewrite (IH Hpk).
    destruct (existsb (has_key u c) t) eqn:E; [|lia].
    apply existsb_has_key_elem_of in E as (r & Hr & _). destruct t; [inversion Hr|simpl; lia].
Qed.

(** X7.  Although [delete] ends in an error, its statement has run: on a
    server that answers, for identifiers the driver can bind, the record
    of the key is gone and every other record is as it was; with the
    primary key in force the table is shorter by one when the key was
    stored and as long as before when it was not; a [get] for the key,
    its identifiers passing the check or the check being skipped, then
    returns the empty list. *)
Theorem delete_removes_only_its_key {codec : EntryCodec}
    (u c : string) (skip skip' : bool) (b : Backend) :
  hd None (faults b) = None ->
  bindable u = true -> bindable c = true ->
  (forall r, r ∈ table (snd (delete u c skip b)) <-> r ∈ table b /\ row_key r <> (u, c)) /\
  (primary_key (table b) ->
   length (table (snd (delete u c skip b))) =
     (length (table b) - (if existsb (has_key u c) (table b) then 1 else 0))%nat) /\
  (hd None (faults (snd (delete u c skip b))) = None ->
   skip' = true \/ (check_suid u = true /\ check_suid c = true) ->
   fst (get u c skip' (snd (delete u c skip b))) = inr []).
Proof.
  intros Hf Hu Hc. rewrite (delete_run u c skip b Hu Hc), Hf. simpl. split; [|split].
  - intros r. rewrite list_elem_of_filter, Is_true_true, negb_true_iff.
    rewrite <- has_key_eq. destruct (has_key u c r); split; intros [H1 H2]; split; auto.
    congruence.
  - apply delete_length.
  - intros Hf' Hid.
    rewrite (get_run u c skip' _ Hid Hu Hc). simpl in *. rewrite Hf'.
    now rewrite (filter_has_key_nil u c _ (deleted_key_absent u c (table b))).
Qed.

Lemma delete_removes_only_its_key_witness :
  hd None (faults Sample.two_rows) = None /\
  length (table (snd (delete "u" "A" false Sample.two_rows))) = 1%nat.
Proof.
  split; [reflexivity|].
  apply (proj1 (proj2 (@delete_removes_only_its_key ByteCodec.codec "u" "A" false false
                         Sample.two_rows eq_refl eq_refl eq_refl))).
  apply (bool_decide_unpack _). vm_compute. exact I.
Defined.

(** ** Appending to what is stored *)

Section AppendReadBack.
Context {codec : EntryCodec} {rt : RoundTrip codec}.

Lemma from_dicts_snoc d l e :
  from_dicts d = inr l -> from_dicts (d ++ [to_dict e]) = inr (l ++ [e]).
Proof using Type*.
  revert l. induction d as [|x d IH]; simpl; intros l H.
  - injection H as <-. now rewrite from_dict_to_dict.
  - destruct (from_dict x) as [|y]; [discriminate|].
    destruct (from_dicts d) as [|ys]; [discriminate|].
    injection H as <-. now rewrite (IH ys eq_refl).
Qed.

(** X8.  Appending composes with reading for any stored record, not only
    one built through this API: on a server that answers, if the value
    stored for a key decodes to a list and [get] returns the non-empty
    list [l] for the key, then after [insert_or_append] of [e] for that
    key [get] returns [l] followed by [e], provided the codec
    round-trips. *)
Theorem get_after_append (K : Z) (u c : string) (e : CacheEntry) (topic : string)
    (skip skip' : bool) (b : Backend) (l : list CacheEntry)
    (r : Row) (bs : bytes) (items : list JsonValue) :
  faults b = [] ->
  head (filter (has_key u c) (table b)) = Some r ->
  value r = Some bs ->
  loads bs = Some (DList items) ->
  fst (get u c skip' b) = inr l ->
  l <> [] ->
  fst (insert_or_append K u c e topic skip b) = inr tt /\
  fst (get u c skip' (snd (insert_or_append K u c e topic skip b))) = inr (l ++ [e]).
Proof using Type*.
  intros Hf Hr Hv Hl Hget Hne.
  destruct (get_checks_or_rejects u c skip' b) as [Hrej|Hid];
    [rewrite Hrej in Hget; discriminate|].
  destruct (bindable u && bindable c) eqn:Hb;
    [|rewrite (get_unbound u c skip' b Hid Hb) in Hget; discriminate].
  apply andb_true_iff in Hb as [Hu Hc].
  rewrite (get_run u c skip' b Hid Hu Hc), Hf in Hget; simpl in Hget.
  destruct (filter (has_key u c) (table b)) as [|r' rs] eqn:Hfl; [discriminate|].
  injection Hr as ->. rewrite Hv, Hl in Hget.
  unfold history_of in Hget; simpl in Hget.
  destruct (from_dicts items) as [|l'] eqn:Hd; [discriminate|]. injection Hget as ->.
  destruct items as [|x d]; [simpl in Hd; injection Hd as <-; contradiction|].
  assert (Hrun : insert_or_append K u c e topic skip b =
            (inr tt, sent (sent b (table b))
                       (map (fun r0 => if has_key u c r0
                                       then touch (clock b) (dumps ((x :: d) ++ [to_dict e])) r0
                                       else r0) (table b)))).
  { unfold insert_or_append, with_cursor, except_DatabaseError, bind.
    rewrite _select_run by assumption. rewrite Hf, Hfl; simpl. rewrite Hv, Hl. simpl.
    unfold _update. rewrite execute_bound by (simpl; now rewrite Hu, Hc). simpl.
    now rewrite Hf. }
  rewrite Hrun; simpl. split; [reflexivity|].
  rewrite (get_run u c skip' _ Hid Hu Hc); simpl. rewrite Hf; simpl.
  rewrite filter_has_key_touch, Hfl; simpl.
  change (x :: d ++ [to_dict e]) with ((x :: d) ++ [to_dict e]).
  rewrite loads_dumps. unfold history_of. cbn [iterate].
  now rewrite (from_dicts_snoc _ _ e Hd).
Qed.

End AppendReadBack.

Lemma get_after_append_witness :
  faults Sample.two_rows = [] /\
  fst (@get ByteCodec.codec "u" "A" true Sample.two_rows) = inr [Byte.x01] /\
  fst (@get ByteCodec.codec "u" "A" true
         (snd (@insert_or_append ByteCodec.codec 2 "u" "A" Byte.x07 "other" false
                 Sample.two_rows))) = inr [Byte.x01; Byte.x07].
Proof.
  split; [reflexivity|]. split; [reflexivity|].
  apply (@get_after_append ByteCodec.codec ByteCodec.round_trip 2 "u" "A" Byte.x07 "other"
           false true Sample.two_rows [Byte.x01]
           (Sample.row "u" "A" [Byte.x01] 1) [Byte.x5b; Byte.x01] [Byte.x01]).
  - reflexivity.
  - reflexivity.
  - reflexivity.
  - reflexivity.
  - reflexivity.
  - discriminate.
Defined.

(** X9.  A record whose stored list is empty can be neither read as a
    conversation nor written to: the empty list is falsy, so
    [insert_or_append] (called with strings the driver can bind) takes
    the insert branch, the INSERT violates the primary key and the call
    raises a CacheError for the IntegrityError, no row changing; [get]
    returns the empty list, as for a key that is not stored. *)
Theorem empty_stored_list_blocks_appends {codec : EntryCodec}
    (K : Z) (u c : string) (e : CacheEntry) (topic : string) (skip skip' : bool)
    (b : Backend) (r : Row) (bs : bytes) :
  faults b = [] ->
  bindable u = true -> bindable c = true -> bindable topic = true ->
  head (filter (has_key u c) (table b)) = Some r ->
  value r = Some bs ->
  loads bs = Some (DList []) ->
  insert_or_append K u c e topic skip b =
    (inl (CacheError "PostgresCache.insert_or_append" IntegrityError),
     sent (sent b (table b)) (table b)) /\
  (skip' = true \/ (check_suid u = true /\ check_suid c = true) ->
   fst (get u c skip' b) = inr []).
Proof.
  intros Hf Hu Hc Ht Hr Hv Hl.
  destruct (filter (has_key u c) (table b)) as [|r' rs] eqn:Hfl; [discriminate|].
  injection Hr as ->.
  assert (Hin : existsb (has_key u c) (table b) = true).
  { apply existsb_has_key_elem_of. exists r.
    assert (Hr : r ∈ filter (has_key u c) (table b)) by (rewrite Hfl; left).
    apply list_elem_of_filter in Hr as [Hk Hr]. apply Is_true_true in Hk.
    split; [exact Hr|now apply has_key_eq]. }
  split.
  - unfold insert_or_append, with_cursor, except_DatabaseError, bind.
    rewrite _select_run by assumption. rewrite Hf, Hfl; simpl. rewrite Hv, Hl. simpl.
    unfold _insert. rewrite execute_bound by (simpl; now rewrite Hu, Hc, Ht). simpl.
    now rewrite Hf, Hin.
  - intros Hid. rewrite (get_run u c skip' b Hid Hu Hc), Hf, Hfl; simpl. now rewrite Hv, Hl.
Qed.

Lemma empty_stored_list_blocks_appends_witness :
  let b := Sample.backend_of [Sample.row "u" "A" [] 1] in
  faults b = [] /\
  @insert_or_append ByteCodec.codec 5 "u" "A" Byte.x01 "topic" false b =
    (inl (CacheError "PostgresCache.insert_or_append" IntegrityError),
     sent (sent b (table b)) (table b)).
Proof.
  intros b. split; [reflexivity|].
  apply (@empty_stored_list_blocks_appends ByteCodec.codec 5 "u" "A" Byte.x01 "topic" false
           false b (Sample.row "u" "A" [] 1) [Byte.x5b]); reflexivity.
Defined.

(** ** Listing after a write *)

(** A call that returned normally was made with identifiers the driver
    can bind. *)
Lemma insert_or_append_ok_bindable {codec : EntryCodec} K u c e topic skip b :
  fst (insert_or_append K u c e topic skip b) = inr tt ->
  bindable u = true /\ bindable c = true.
Proof.
  intros Hok. destruct (bindable u && bindable c) eqn:Hb; [now apply andb_true_iff|].
  rewrite (insert_or_append_unbound K u c e topic skip b Hb) in Hok. discriminate.
Qed.

(** After a successful call on a server that answers, a row either has
    the key of the call and the time of the call, or is a row of another
    key that was there before. *)
Lemma rows_after_write {codec : EntryCodec} K u c e topic skip b r' :
  faults b = [] ->
  fst (insert_or_append K u c e topic skip b) = inr tt ->
  r' ∈ table (snd (insert_or_append K u c e topic skip b)) ->
  (row_key r' = (u, c) /\ updated_at r' = Some (clock b)) \/
  (r' ∈ table b /\ row_key r' <> (u, c)).
Proof.
  intros Hf Hok Hr'.
  destruct (insert_or_append_ok_bindable K u c e topic skip b Hok) as [Hu Hc].
  destruct (existsb (has_key u c) (table b)) eqn:Hin.
  - destruct (insert_or_append_present K u c e topic skip b Hin)
      as [(ex & Hex & _)|(_ & _ & _ & _ & r0 & bs & old & _ & _ & _ & _ & Ht)];
      [rewrite Hok in Hex; discriminate|].
    rewrite Ht, map_fmap in Hr'. apply list_elem_of_fmap in Hr' as (r & -> & Hr).
    destruct (has_key u c r) eqn:Hk.
    + left. split; [|reflexivity]. now apply has_key_eq in Hk.
    + right. split; [exact Hr|]. intros Hk'. apply has_key_eq in Hk'. congruence.
  - destruct (bindable topic) eqn:Ht; cycle 1.
    { rewrite (insert_or_append_absent_topic K u c e topic skip b) in Hok
        by (auto; now rewrite Hf).
      discriminate. }
    destruct (insert_or_append_absent K u c e topic skip b Hf Hin Hu Hc Ht)
      as (b' & Hrun & _ & _ & Htab).
    rewrite Hrun in Hr'; simpl in Hr'. rewrite Htab in Hr'.
    assert (Hr1 : r' ∈ table b ++ [new_row u c e topic (clock b)]).
    { destruct (_ && _); [|exact Hr']. now apply evict_subseteq in Hr'. }
    apply elem_of_app in Hr1 as [Hr1|Hr1].
    + right. split; [exact Hr1|]. intros Hk.
      assert (existsb (has_key u c) (table b) = true); [|congruence].
      apply existsb_has_key_elem_of. now exists r'.
    + apply list_elem_of_singleton in Hr1 as ->. left. split; reflexivity.
Qed.

(** X10.  The conversation last written comes first in [list]: after a
    successful [insert_or_append] on a server that answers, at a time
    later than the last write of every other conversation of the user,
    and the record still stored, [list] for the user starts with that
    conversation. *)
Theorem written_conversation_is_listed_first {codec : EntryCodec}
    (K : Z) (u c : string) (e : CacheEntry) (topic : string) (skip skip' : bool)
    (b : Backend) :
  faults b = [] ->
  fst (insert_or_append K u c e topic skip b) = inr tt ->
  existsb (has_key u c) (table (snd (insert_or_append K u c e topic skip b))) = true ->
  (forall r, r ∈ table b -> user_id r = u -> conversation_id r <> c ->
             ts_leb (Some (clock b)) (updated_at r) = false) ->
  exists first rest,
    fst (list_ u skip' (snd (insert_or_append K u c e topic skip b))) = inr (first :: rest) /\
    conv_conversation_id first = Some c.
Proof.
  intros Hf Hok Hin Hlater.
  destruct (insert_or_append_ok_bindable K u c e topic skip b Hok) as [Hu _].
  set (b' := snd (insert_or_append K u c e topic skip b)) in *.
  assert (Hf' : faults b' = []) by now apply insert_or_append_quiet.
  rewrite (list_run u skip' b' Hu), Hf'; simpl.
  set (rows := order_by (ties b' (calls b')) newer_eq
                 (filter (fun r => String.eqb (user_id r) u) (table b'))).
  assert (Hrows : forall r, r ∈ rows <-> r ∈ table b' /\ user_id r = u).
  { intros r. unfold rows.
    rewrite order_by_Permutation, list_elem_of_filter, Is_true_true, String.eqb_eq. tauto. }
  assert (Hsorted : StronglySorted (fun r1 r2 => newer_eq r1 r2 = true) rows)
    by (apply order_by_sorted; [apply newer_eq_total|apply newer_eq_trans]).
  apply existsb_has_key_elem_of in Hin as (w & Hw & Hkw).
  assert (Hwrows : w ∈ rows) by (apply Hrows; split; [exact Hw|now injection Hkw]).
  assert (Htw : updated_at w = Some (clock b)).
  { destruct (rows_after_write K u c e topic skip b w Hf Hok Hw) as [[_ H]|[_ H]];
      [exact H|contradiction]. }
  destruct rows as [|h rest] eqn:Erows; [inversion Hwrows|].
  exists (conversation_of h), (map conversation_of rest). split; [reflexivity|].
  simpl. f_equal.
  assert (Hh : h ∈ table b' /\ user_id h = u) by (apply Hrows; left).
  destruct Hh as [Hh Hhu].
  destruct (rows_after_write K u c e topic skip b h Hf Hok Hh) as [[Hk _]|[Hhb Hk]].
  - now injection Hk.
  - exfalso.
    assert (Hhc : conversation_id h <> c).
    { intros Hhc. apply Hk. unfold row_key. now rewrite Hhu, Hhc. }
    pose proof (Hlater h Hhb Hhu Hhc) as Hold.
    apply StronglySorted_inv in Hsorted as [_ Hall].
    apply elem_of_cons in Hwrows as [->|Hwrest]; [congruence|].
    rewrite Forall_forall in Hall. specialize (Hall w Hwrest).
    unfold newer_eq in Hall. rewrite Htw in Hall. congruence.
Qed.

Lemma written_conversation_is_listed_first_witness :
  let b := at_time 5 Sample.two_rows in
  faults b = [] /\
  exists first rest,
    fst (list_ "u" false
           (snd (@insert_or_append ByteCodec.codec 2 "u" "A" Byte.x07 "other" false b))) =
      inr (first :: rest) /\
    conv_conversation_id first = Some "A".
Proof.
  intros b. split; [reflexivity|].
  apply (@written_conversation_is_listed_first ByteCodec.codec 2 "u" "A" Byte.x07 "other"
           false false b).
  - reflexivity.
  - reflexivity.
  - reflexivity.
  - intros r Hr Hu Hc. apply elem_of_cons in Hr as [->|Hr]; [now contradiction Hc|].
    apply list_elem_of_singleton in Hr as ->. reflexivity.
Defined.

(** ** Errors of the writes and of [list] *)

Create HintDb plain.

Section Wrapping.
Context {codec : EntryCodec}.

Lemma plain_ret {A} (x : A) : plain (ret x).
Proof. intros s op e. discriminate. Qed.

Lemma plain_raise_Builtin {A} e : plain (@raise A (Builtin e)).
Proof. intros s op e'. discriminate. Qed.

Lemma plain_bind {A B} (m : M A) (k : A -> M B) :
  plain m -> (forall x, plain (k x)) -> plain (bind m k).
Proof.
  intros Hm Hk s op e. unfold bind. specialize (Hm s op e).
  destruct (m s) as [[ex|x] s']; [|apply Hk].
  simpl in *. intros [= ->]. now apply Hm.
Qed.

Lemma plain_execute q : plain (execute q).
Proof.
  intros s op e. unfold execute. destruct (negb _); [discriminate|].
  destruct (hd None (faults (conn s))); [discriminate|].
  destruct (run_statement _ _ q _) as [|[t rs]]; discriminate.
Qed.

Lemma plain_fetchone : plain fetchone.
Proof. intros s op e. unfold fetchone. destruct (results s) as [[|r rs]|]; discriminate. Qed.

Lemma plain_fetchall : plain fetchall.
Proof. intros s op e. unfold fetchall. destruct (results s); discriminate. Qed.

#[local] Hint Resolve plain_ret plain_raise_Builtin plain_bind plain_execute
  plain_fetchone plain_fetchall : plain.

Lemma plain_select u c : plain (_select u c).
Proof.
  unfold _select. apply plain_bind; [auto with plain|]. intros _.
  apply plain_bind; [auto with plain|]. intros [value|]; [|auto with plain].
  destruct (negb _); [auto with plain|].
  destruct value as [|[[bs|]| |] ?]; auto with plain.
  destruct (loads bs); auto with plain.
Qed.

Lemma plain_cleanup K : plain (_cleanup K).
Proof.
  unfold _cleanup. apply plain_bind; [auto with plain|]. intros _.
  apply plain_bind; [auto with plain|]. intros [[|[| |count] ?]|]; auto with plain.
  destruct (0 <? _); auto with plain.
Qed.

(** The handler turns what a plain body raises into a wrapped outcome. *)
Lemma except_wraps {A} op (m : M A) s :
  plain m -> wrapped_by op (fst (except_DatabaseError op m s)).
Proof.
  intros Hm. unfold except_DatabaseError. specialize (Hm s).
  destruct (m s) as [[ex|x] s']; simpl; [|exact I].
  destruct ex as [|e|e|op' e]; simpl; try exact I.
  - destruct (is_DatabaseError e) eqn:E; simpl; auto.
  - now contradiction (Hm op' e).
Qed.

End Wrapping.

(** X11.  No [psycopg2.DatabaseError] leaves [insert_or_append],
    [delete] or [list] unwrapped, whatever the arguments and the server:
    a psycopg2 error that comes out bare is no DatabaseError, and a
    CacheError that comes out names the method that raised it and holds
    a DatabaseError. *)
Theorem writes_and_list_wrap_DatabaseError {codec : EntryCodec}
    (K : Z) (u c : string) (e : CacheEntry) (topic : string) (skip : bool) (b : Backend) :
  wrapped_by "PostgresCache.insert_or_append" (fst (insert_or_append K u c e topic skip b)) /\
  wrapped_by "PostgresCache.delete" (fst (delete u c skip b)) /\
  wrapped_by "PostgresCache.list" (fst (list_ u skip b)).
Proof.
  assert (Hcur : forall A (m : M A), fst (with_cursor m b) = fst (m (mkSession b None))).
  { intros A m. unfold with_cursor. now destruct (m _). }
  split; [|split].
  - unfold insert_or_append. rewrite Hcur. apply except_wraps.
    apply plain_bind; [apply plain_select|].
    unfold _update, _insert. intros d. destruct (truth d).
    + destruct d; auto using plain_execute, plain_raise_Builtin.
    + auto using plain_bind, plain_execute, plain_cleanup.
  - unfold delete. rewrite Hcur. apply except_wraps.
    unfold _delete. auto 6 using plain_bind, plain_execute, plain_fetchone, plain_ret.
  - unfold list_. rewrite Hcur. apply except_wraps.
    auto 6 using plain_bind, plain_execute, plain_fetchall, plain_ret.
Qed.

(** ** Other keys *)

Lemma filter_other_key_touch u c u' c' now v t :
  (u', c') <> (u, c) ->
  filter (has_key u' c') (map (fun r => if has_key u c r then touch now v r else r) t) =
  filter (has_key u' c') t.
Proof.
  intros Hne. induction t as [|r t IH]; simpl; [reflexivity|].
  destruct (has_key u c r) eqn:E.
  - assert (Hr : has_key u' c' r = false).
    { destruct (has_key u' c' r) eqn:E'; [|reflexivity].
      apply has_key_eq in E, E'. congruence. }
    assert (Hr' : has_key u' c' (touch now v r) = false) by exact Hr.
    rewrite (filter_cons_False _ (touch now v r)) by (rewrite Hr'; simpl; tauto).
    rewrite (filter_cons_False _ r) by (rewrite Hr; simpl; tauto).
    exact IH.
  - destruct (has_key u' c' r) eqn:E'.
    + rewrite !filter_cons_True by (rewrite Is_true_true; assumption). now rewrite IH.
    + rewrite !filter_cons_False by (rewrite Is_true_true; congruence). exact IH.
Qed.

Lemma get_depends_on_selection {codec : EntryCodec} u c skip b1 b2 :
  hd None (faults b1) = hd None (faults b2) ->
  filter (has_key u c) (table b1) = filter (has_key u c) (table b2) ->
  fst (get u c skip b1) = fst (get u c skip b2).
Proof.
  intros Hf Ht.
  assert (Hgo : skip = true \/ (check_suid u = true /\ check_suid c = true) ->
                fst (get u c skip b1) = fst (get u c skip b2)).
  { intros Hid. destruct (bindable u && bindable c) eqn:Hb.
    - apply andb_true_iff in Hb as [Hu Hc].
      rewrite (get_run u c skip b1 Hid Hu Hc), (get_run u c skip b2 Hid Hu Hc); simpl.
      now rewrite Hf, Ht.
    - now rewrite (get_unbound u c skip b1 Hid Hb), (get_unbound u c skip b2 Hid Hb). }
  destruct skip; [apply Hgo; now left|].
  destruct (check_suid u && check_suid c) eqn:E.
  - apply andb_true_iff in E. apply Hgo. now right.
  - now rewrite !(get_rejects_before_backend u c _ E).
Qed.

(** X12.  While there is room in the cache, a write for one key changes
    what is stored under no other key, whatever the server does and
    whether the write succeeds; on a server that answers, [get] for any
    other key returns after the write what it returned before. *)
Theorem write_leaves_other_keys {codec : EntryCodec}
    (K : Z) (u c : string) (e : CacheEntry) (topic : string) (skip skip' : bool)
    (b : Backend) (u' c' : string) :
  Z.of_nat (length (table b)) < K ->
  (u', c') <> (u, c) ->
  filter (has_key u' c') (table (snd (insert_or_append K u c e topic skip b))) =
    filter (has_key u' c') (table b) /\
  (faults b = [] ->
   fst (get u' c' skip' (snd (insert_or_append K u c e topic skip b))) =
     fst (get u' c' skip' b)).
Proof.
  intros Hroom Hne.
  assert (Hsel : filter (has_key u' c') (table (snd (insert_or_append K u c e topic skip b))) =
                 filter (has_key u' c') (table b)).
  { destruct (existsb (has_key u c) (table b)) eqn:Hin.
    - destruct (insert_or_append_present K u c e topic skip b Hin)
        as [(ex & _ & ->)|(_ & _ & _ & _ & r0 & bs & old & _ & _ & _ & _ & ->)];
        [reflexivity|].
      now apply filter_other_key_touch.
    - destruct (insert_or_append_absent_cases K u c e topic skip b Hin)
        as [->|[->|[Hover _]]]; [reflexivity| |rewrite length_app in Hover; simpl in Hover; lia].
      rewrite filter_app, filter_cons_False, filter_nil, app_nil_r; [reflexivity|].
      rewrite Is_true_true. intros Hk. apply has_key_eq in Hk. apply Hne.
      now rewrite <- Hk. }
  split; [exact Hsel|].
  intros Hf. apply get_depends_on_selection; [|exact Hsel].
  now rewrite (insert_or_append_quiet K u c e topic skip b Hf), Hf.
Qed.

Lemma write_leaves_other_keys_witness :
  Z.of_nat (length (table Sample.two_rows)) < 5 /\
  fst (@get ByteCodec.codec "u" "B" true
         (snd (@insert_or_append ByteCodec.codec 5 "u" "A" Byte.x07 "topic" false
                 Sample.two_rows))) =
    fst (@get ByteCodec.codec "u" "B" true Sample.two_rows).
Proof.
  split; [reflexivity|].
  apply (@write_leaves_other_keys ByteCodec.codec 5 "u" "A" Byte.x07 "topic" false true
           Sample.two_rows "u" "B").
  - reflexivity.
  - discriminate.
  - reflexivity.
Defined.

(** * Connecting *)

Module LifecycleFacts.
Import Lifecycle.

Lemma contact_schema sv :
  cache_exists (snd (contact sv)) = cache_exists sv /\
  timestamps_exists (snd (contact sv)) = timestamps_exists sv /\
  table (backend (snd (contact sv))) = table (backend sv).
Proof. repeat split. Qed.

(** A failed [initialize_cache] commits nothing. *)
Lemma initialize_cache_failure sv ex :
  fst (initialize_cache sv) = inl ex ->
  (exists e, ex = Psycopg e) /\
  cache_exists (snd (initialize_cache sv)) = cache_exists sv /\
  timestamps_exists (snd (initialize_cache sv)) = timestamps_exists sv /\
  table (backend (snd (initialize_cache sv))) = table (backend sv).
Proof.
  unfold initialize_cache, contact; simpl.
  destruct (hd None (faults (backend sv))) as [e1|]; simpl;
    [intros [= <-]; repeat split; eauto|].
  destruct (hd None (tl (faults (backend sv)))) as [e2|]; simpl;
    [intros [= <-]; repeat split; eauto|].
  destruct (hd None (tl (tl (faults (backend sv))))) as [e3|]; simpl;
    [intros [= <-]; repeat split; eauto|discriminate].
Qed.

End LifecycleFacts.

(** X13.  A [connect] that fails leaves the cache unusable but clean,
    whichever step failed and whatever connection was held before: the
    error comes out as the psycopg2 error it was, [self.connection] is
    [None] or a closed connection on which autocommit was never enabled,
    [ready] answers [False] without raising, and neither the schema nor
    any row of the server has changed. *)
Theorem failed_connect_is_not_ready
    (held : option Lifecycle.Connection) (sv : Lifecycle.Server) (ex : Exn) :
  fst (fst (Lifecycle.connect held sv)) = inl ex ->
  (exists e, ex = Psycopg e) /\
  (snd (fst (Lifecycle.connect held sv)) = None \/
   snd (fst (Lifecycle.connect held sv)) =
     Some {| Lifecycle.closed := 1; Lifecycle.autocommit := false |}) /\
  Lifecycle.ready (snd (fst (Lifecycle.connect held sv))) = inr false /\
  Lifecycle.cache_exists (snd (Lifecycle.connect held sv)) = Lifecycle.cache_exists sv /\
  Lifecycle.timestamps_exists (snd (Lifecycle.connect held sv)) =
    Lifecycle.timestamps_exists sv /\
  table (Lifecycle.backend (snd (Lifecycle.connect held sv))) =
    table (Lifecycle.backend sv).
Proof.
  unfold Lifecycle.connect.
  destruct (Lifecycle.contact sv) as [link sv0] eqn:Hc.
  pose proof (LifecycleFacts.contact_schema sv) as (Hs1 & Hs2 & Hs3).
  rewrite Hc in Hs1, Hs2, Hs3; simpl in Hs1, Hs2, Hs3.
  destruct link as [e0|]; simpl.
  - intros [= <-]. repeat split; eauto.
  - destruct (Lifecycle.initialize_cache sv0) as [[ex1|[]] sv1] eqn:Hi; simpl;
      [|discriminate].
    intros [= <-].
    destruct (LifecycleFacts.initialize_cache_failure sv0 ex1) as (He & H1 & H2 & H3);
      [now rewrite Hi|].
    rewrite Hi in H1, H2, H3; simpl in H1, H2, H3.
    split; [exact He|]. split; [now right|]. split; [reflexivity|].
    repeat split; congruence.
Qed.

Lemma failed_connect_is_not_ready_witness :
  let sv := {| Lifecycle.cache_exists := true; Lifecycle.timestamps_exists := true;
               Lifecycle.backend :=
                 {| table := table Sample.two_rows; clock := 0;
                    faults := [None; None; Some OperationalError]; calls := 0;
                    ties := storage_order |} |} in
  fst (fst (Lifecycle.connect None sv)) = inl (Psycopg OperationalError) /\
  Lifecycle.ready (snd (fst (Lifecycle.connect None sv))) = inr false /\
  table (Lifecycle.backend (snd (Lifecycle.connect None sv))) = table Sample.two_rows.
Proof.
  intros sv.
  assert (H : fst (fst (Lifecycle.connect None sv)) = inl (Psycopg OperationalError))
    by reflexivity.
  split; [exact H|].
  destruct (failed_connect_is_not_ready None sv _ H) as (_ & _ & Hr & _ & _ & Ht).
  split; [exact Hr|exact Ht].
Defined.

(** X14.  On a server that answers, [connect] succeeds whatever
    connection was held before: the connection is open and in autocommit
    mode, the table and its index exist, the records of a table that was
    already there are all kept, and [ready] and [connected] then answer
    [True]; so connecting again later loses nothing. *)
Theorem connect_keeps_stored_records
    (held : option Lifecycle.Connection) (sv : Lifecycle.Server) :
  faults (Lifecycle.backend sv) = [] ->
  fst (Lifecycle.connect held sv) =
    (inr tt, Some {| Lifecycle.closed := 0; Lifecycle.autocommit := true |}) /\
  Lifecycle.cache_exists (snd (Lifecycle.connect held sv)) = true /\
  Lifecycle.timestamps_exists (snd (Lifecycle.connect held sv)) = true /\
  table (Lifecycle.backend (snd (Lifecycle.connect held sv))) =
    (if Lifecycle.cache_exists sv then table (Lifecycle.backend sv) else []) /\
  Lifecycle.ready (snd (fst (Lifecycle.connect held sv))) = inr true /\
  fst (Lifecycle.connected (snd (fst (Lifecycle.connect held sv)))
         (snd (Lifecycle.connect held sv))) = inr true /\
  table (Lifecycle.backend
           (snd (Lifecycle.connect (snd (fst (Lifecycle.connect held sv)))
                   (snd (Lifecycle.connect held sv))))) =
    table (Lifecycle.backend (snd (Lifecycle.connect held sv))).
Proof.
  intros Hf.
  assert (Hrun : Lifecycle.connect held sv =
            (inr tt, Some {| Lifecycle.closed := 0; Lifecycle.autocommit := true |},
             {| Lifecycle.cache_exists := true; Lifecycle.timestamps_exists := true;
                Lifecycle.backend :=
                  {| table := if Lifecycle.cache_exists sv
                              then table (Lifecycle.backend sv) else [];
                     clock := clock (Lifecycle.backend sv); faults := [];
                     calls := S (S (S (S (calls (Lifecycle.backend sv)))));
                     ties := ties (Lifecycle.backend sv) |} |})).
  { unfold Lifecycle.connect, Lifecycle.initialize_cache, Lifecycle.contact, sent; simpl.
    now rewrite Hf. }
  rewrite Hrun; simpl. repeat split.
Qed.

Lemma connect_keeps_stored_records_witness :
  let sv := {| Lifecycle.cache_exists := true; Lifecycle.timestamps_exists := true;
               Lifecycle.backend := Sample.two_rows |} in
  faults (Lifecycle.backend sv) = [] /\
  table (Lifecycle.backend (snd (Lifecycle.connect None sv))) = table Sample.two_rows.
Proof.
  intros sv. split; [reflexivity|].
  apply (connect_keeps_stored_records None sv). reflexivity.
Defined.

(** * The cache on its own data *)

Section OwnData.
Context {codec : EntryCodec} {rt : RoundTrip codec}.






End OwnData.

